(** * scvelo: neighbour-graph utilities of [scvelo/tools/utils.py]

    A shallow embedding of [geometric_matrix_sum], [get_iterative_indices],
    [groups_to_bool] and [get_indices], and the properties of them that the
    specification states; then further properties of these functions and of
    the bookkeeping helpers of the same file and of
    [scvelo/preprocessing/utils.py].

    Conventions.  Python integers are [Z]; array positions and cell indices
    are [nat].  Floating-point entries are replaced by exact integers: a
    stored distance is a fixed-point number counted in units of [1e-6], so
    that the constant [1e-6] of the source is [eps = 1]; rounding is
    therefore outside this development. *)

From Equations Require Import Equations.
From stdpp Require Import gmap strings list sorting.

Local Open Scope Z_scope.

(** * Part I: the program *)

(** ** Dense matrices and [geometric_matrix_sum] *)

(** A two-dimensional array, row by row. *)
Abbreviation matrix := (list (list Z)).

(** The shape the contract speaks of: [n] rows of [n] entries. *)
Definition square (n : nat) (C : matrix) : Prop :=
  length C = n ∧ Forall (λ r, length r = n) C.

(** [A + B] on arrays of one shape. *)
Definition vadd (u v : list Z) : list Z := zip_with Z.add u v.
Definition madd (A B : matrix) : matrix := zip_with vadd A B.

(** Column [j] of [B], and the sum of products of a row with a column. *)
Definition col (j : nat) (B : matrix) : list Z := (λ r, nth j r 0) <$> B.
Definition dotp (u v : list Z) : Z := foldr Z.add 0 (zip_with Z.mul u v).
Definition ncols (B : matrix) : nat := length (hd [] B).

(** The matrix product: entry [(i, j)] is row [i] of [A] times column [j]
    of [B]. *)
Definition mmul (A B : matrix) : matrix :=
  (λ r, (λ j, dotp r (col j B)) <$> seq 0 (ncols B)) <$> A.

(** The argument of [ndarray.dot] in [geometric_matrix_sum] is either an
    array or the Python scalar [0]. *)
Inductive operand :=
| Mat (M : matrix)
| Scalar (s : Z).

(** [C.dot(X)]: the matrix product for an array, the entrywise multiple for
    a scalar. *)
Definition dot (C : matrix) (X : operand) : matrix :=
  match X with
  | Mat M => mmul C M
  | Scalar s => (λ r : list Z, (λ x, x * s) <$> r) <$> C
  end.

(** [geometric_matrix_sum(C, n_power)]:
<<
    C_n = (geometric_matrix_sum(C, n_power - 1) if n_power > 2
           else C if n_power > 1 else 0)
    return C + C.dot(C_n)
>> *)
Equations? geometric_matrix_sum (C : matrix) (n_power : Z) : matrix
  by wf (Z.to_nat n_power) lt :=
  geometric_matrix_sum C n_power :=
    let C_n :=
      match decide (n_power > 2) with
      | left _ => Mat (geometric_matrix_sum C (n_power - 1))
      | right _ => if decide (n_power > 1) then Mat C else Scalar 0
      end in
    madd C (dot C C_n).
Proof. lia. Qed.

(** The mathematical side of the contract: the identity matrix, [C^k] by
    repeated multiplication, and [C^1 + C^2 + ... + C^n]. *)
Definition identity (n : nat) : matrix :=
  (λ i, (λ j, if decide (i = j) then 1 else 0) <$> seq 0 n) <$> seq 0 n.

Definition zeros (n : nat) : matrix := replicate n (replicate n 0).

Fixpoint mpow (C : matrix) (k : nat) : matrix :=
  match k with
  | O => identity (length C)
  | S k' => mmul C (mpow C k')
  end.

Fixpoint power_sum (C : matrix) (n : nat) : matrix :=
  match n with
  | O => zeros (length C)
  | S n' => madd (power_sum C n') (mpow C n)
  end.

(** ** Neighbour tables and [get_iterative_indices] *)

(** A neighbour-index table has one row per cell; an entry is the index of a
    neighbouring cell, or the padding sentinel NaN ([None]). *)
Abbreviation table := (list (list (option nat))).

(** [indices[index]] for an array of row numbers: the selected rows, or an
    [IndexError] ([None]) when a row number is past the end. *)
Definition take_rows (indices : table) (index : list nat) : option table :=
  mapM (λ i, indices !! i) index.

Definition isnan (x : option nat) : bool :=
  match x with None => true | Some _ => false end.

(** [ix.astype(int)] on an array that holds no NaN any more. *)
Definition astype_int (ix : list (option nat)) : list nat := omap id ix.

(** One pass of the inner function below its recursive call:
<<
    ix = np.append(index, indices[index])
    if np.isnan(ix).any():
        ix = ix[~np.isnan(ix)]
    return ix.astype(int)
>>
    [np.append] flattens both arguments. *)
Definition append_neighbors (indices : table) (index : list nat)
  : option (list nat) :=
  rows ← take_rows indices index;
  let ix := (Some <$> index) ++ mjoin rows in
  let ix := if existsb isnan ix then filter (λ x, ¬ isnan x) ix else ix in
  Some (astype_int ix).

(** The inner function [iterate_indices(indices, index, n_recurse_neighbors)];
    the seed, a scalar in the first call, is the one-element array. *)
Equations? iterate_indices (indices : table) (index : list nat)
    (n_recurse_neighbors : Z) : option (list nat)
  by wf (Z.to_nat n_recurse_neighbors) lt :=
  iterate_indices indices index n_recurse_neighbors :=
    let index' :=
      match decide (n_recurse_neighbors > 1) with
      | left _ => iterate_indices indices index (n_recurse_neighbors - 1)
      | right _ => Some index
      end in
    index' ≫= append_neighbors indices.
Proof. lia. Qed.

(** [np.unique]: the sorted array of the distinct elements. *)
Fixpoint insert_unique (x : nat) (l : list nat) : list nat :=
  match l with
  | [] => [x]
  | y :: l' =>
      if decide (x < y)%nat then x :: l
      else if decide (x = y) then l
      else y :: insert_unique x l'
  end.

Definition unique (l : list nat) : list nat := foldr insert_unique [] l.

(** [np.random.choice(a, size, replace=False)]: numpy draws a permutation of
    the positions [0 .. len(a) - 1], keeps its first [size] entries and
    returns the elements at these positions.  The random source [rng] gives,
    for a population size, the permutation drawn; a negative [size] or one
    above [len(a)] raises [ValueError]. *)
Definition random_choice (rng : nat → list nat) (a : list nat) (size : Z)
  : option (list nat) :=
  if decide (size < 0 ∨ Z.of_nat (length a) < size) then None
  else mapM (λ i, a !! i) (take (Z.to_nat size) (rng (length a))).

(** [get_iterative_indices(indices, index, n_recurse_neighbors, max_neighs)]:
<<
    indices = np.unique(iterate_indices(indices, index, n_recurse_neighbors))
    if max_neighs is not None and len(indices) > max_neighs:
        indices = np.random.choice(indices, max_neighs, replace=False)
    return indices
>> *)
Definition get_iterative_indices (rng : nat → list nat) (indices : table)
    (index : nat) (n_recurse_neighbors : Z) (max_neighs : option Z)
  : option (list nat) :=
  ix ← iterate_indices indices [index] n_recurse_neighbors;
  let indices := unique ix in
  match max_neighs with
  | Some m =>
      if decide (Z.of_nat (length indices) > m)
      then random_choice rng indices m
      else Some indices
  | None => Some indices
  end.

(** The tables the closure is meant for: every entry that is not the
    sentinel is the index of a row. *)
Definition table_ok (indices : table) : Prop :=
  Forall (Forall (λ e, from_option (λ j, j < length indices)%nat True e))
         indices.

(** Row numbers that [indices[index]] accepts. *)
Definition rows_in_range (indices : table) (index : list nat) : Prop :=
  Forall (λ i, i < length indices)%nat index.

(** A random source is a source of permutations. *)
Definition rng_ok (rng : nat → list nat) : Prop :=
  ∀ n, rng n ≡ₚ seq 0 n.

(** *** The vocabulary of the statements about the closure *)

(** [reachable indices seed d x]: the cell [x] is at most [d] hops from the
    seed in the graph that the table lists. *)
Inductive reachable (indices : table) (seed : nat) : nat → nat → Prop :=
| reach_seed : reachable indices seed 0 seed
| reach_stay d x :
    reachable indices seed d x → reachable indices seed (S d) x
| reach_hop d y row x :
    reachable indices seed d y → indices !! y = Some row → Some x ∈ row →
    reachable indices seed (S d) x.

(** ** [groups_to_bool] *)

(** The per-cell attribute table [adata.obs]: a column of one value per cell
    under each key. *)
Abbreviation obs_table := (gmap string (list string)).

(** The values the [groups] argument takes: one group name, a list of group
    names, or anything else (such as [None]), and what the function returns:
    the mask, or the argument as it came. *)
Inductive groups_arg :=
| GroupName (s : string)
| GroupList (l : list string)
| GroupOther.

Inductive groups_result :=
| Mask (m : list bool)
| Unchanged.

Inductive outcome (A : Type) :=
| Returns (a : A)
| ValueError (msg : string)
| KeyError (key : string).
Arguments Returns {A} a.
Arguments ValueError {A} msg.
Arguments KeyError {A} key.

Definition raises {A} (o : outcome A) : Prop :=
  match o with Returns _ => False | _ => True end.

(** [groupby in adata.obs.keys()]; the default [groupby=None] is no key. *)
Definition in_keys (obs : obs_table) (groupby : option string) : bool :=
  match groupby with
  | Some g => bool_decide (is_Some (obs !! g))
  | None => false
  end.

(** [groups_to_bool(adata, groups, groupby)]:
<<
    groups = [groups] if isinstance(groups, str) else groups
    if isinstance(groups, (list, tuple, np.ndarray, np.record)):
        groupby = (groupby if groupby in adata.obs.keys()
                   else "clusters" if "clusters" in adata.obs.keys()
                   else "louvain" if "louvain" in adata.obs.keys()
                   else None)
        if groupby is not None:
            groups = np.array([key in groups for key in adata.obs[groupby]])
        else:
            raise ValueError("groupby attribute not valid.")
    return groups
>> *)
Definition groups_to_bool (obs : obs_table) (groups : groups_arg)
    (groupby : option string) : outcome groups_result :=
  let groups :=
    match groups with GroupName s => GroupList [s] | _ => groups end in
  match groups with
  | GroupList names =>
      let groupby :=
        if in_keys obs groupby then groupby
        else if in_keys obs (Some "clusters") then Some "clusters"
        else if in_keys obs (Some "louvain") then Some "louvain"
        else None in
      match groupby with
      | Some g =>
          match obs !! g with
          | Some column =>
              Returns (Mask ((λ key, bool_decide (key ∈ names)) <$> column))
          | None => KeyError g
          end
      | None => ValueError "groupby attribute not valid."
      end
  | _ => Returns Unchanged
  end.

(** The mask is [True] exactly at the cells whose value is in the list. *)
Definition mask_of (names column : list string) (m : list bool) : Prop :=
  length m = length column
  ∧ ∀ i v, column !! i = Some v → (m !! i = Some true ↔ v ∈ names).

(** ** Sparse matrices and [get_indices] *)

(** The constant [1e-6], in the unit of the stored distances. *)
Definition eps : Z := 1.

(** A matrix in compressed sparse row format: for each row its stored
    entries, a column index with a value, in storage order; the order
    need not be that of the column indices, and a column index may be
    stored more than once.  The arrays [indices] and [data] of the source
    are the columns and the values of all rows laid end to end; [indptr]
    is implicit in the lengths of the rows. *)
Abbreviation entry := (nat * Z)%type.
Abbreviation csr := (list (list entry)).

Definition csr_indices (D : csr) : list nat := fst <$> mjoin D.
Definition csr_data (D : csr) : list Z := snd <$> mjoin D.

(** Storing an array [dat] as the [data] of [D], the structure kept: each
    row takes as many values as it has entries. *)
Fixpoint with_data (D : csr) (dat : list Z) : csr :=
  match D with
  | [] => []
  | row :: D' =>
      zip (fst <$> row) (take (length row) dat)
      :: with_data D' (drop (length row) dat)
  end.

(** [D.data += c] *)
Definition data_add (c : Z) (D : csr) : csr :=
  (λ row : list entry, (λ e : entry, (e.1, e.2 + c)) <$> row) <$> D.

(** [D.sum_duplicates()] of scipy brings a matrix to canonical form, in
    place: every row sorted by column index, and the values stored
    under one column index added up.  The comparison [D > 0] with the
    scalar [0] starts with this call on [D] itself, before it builds the
    boolean matrix. *)
Fixpoint insert_entry (e : entry) (row : list entry) : list entry :=
  match row with
  | [] => [e]
  | e' :: row' =>
      if decide (e.1 < e'.1)%nat then e :: e' :: row'
      else if decide (e.1 = e'.1) then (e'.1, e'.2 + e.2) :: row'
      else e' :: insert_entry e row'
  end.

Definition sum_duplicates_row (row : list entry) : list entry :=
  foldr insert_entry [] row.

Definition sum_duplicates (D : csr) : csr := sum_duplicates_row <$> D.

(** Modelled from the spec: [sum] of [scvelo.core] is not among the sources;
    following the specification (the number of stored entries of each row)
    [sum(D > 0, axis=1)] adds up each row of the boolean matrix [D > 0],
    which gives, row by row, the number of stored entries that are
    positive. *)
Definition count_positive (D : csr) : list nat :=
  (λ row : list entry, length (filter (λ e : entry, 0 < e.2) row)) <$> D.

(** [a.min()] and [np.max(a)]; both raise on an empty array. *)
Definition min_list (a : list nat) : option nat :=
  match a with
  | [] => None
  | x :: a' => Some (foldr Nat.min x a')
  end.

Definition max_list (a : list nat) : option nat :=
  match a with
  | [] => None
  | x :: a' => Some (foldr Nat.max x a')
  end.

(** [np.where(n_counts > n_neighbors)[0]] *)
Definition where_gt (n_counts : list nat) (n_neighbors : Z) : list nat :=
  filter (λ row, n_neighbors < Z.of_nat (n_counts !!! row))
         (seq 0 (length n_counts)).

(** [np.insert(n_counts.cumsum(), 0, 0)] *)
Fixpoint cumsum (acc : nat) (a : list nat) : list nat :=
  match a with
  | [] => []
  | x :: a' => (acc + x)%nat :: cumsum (acc + x) a'
  end.

Definition cumsum_neighs (n_counts : list nat) : list nat :=
  O :: cumsum 0 n_counts.

(** The slices [a[n0:n1]] and [a[start:]]; a negative [start] counts from
    the end. *)
Definition slice {A} (a : list A) (n0 n1 : nat) : list A :=
  take (n1 - n0) (drop n0 a).

Definition slice_from {A} (a : list A) (start : Z) : list A :=
  if decide (start < 0)
  then drop (length a - Z.to_nat (- start)) a
  else drop (Z.to_nat start) a.

(** [dat[rm_idx] = 0] *)
Definition set_zero (dat : list Z) (rm_idx : list nat) : list Z :=
  foldr (λ i d, <[i := 0]> d) dat rm_idx.

(** [ndarray.argsort()] with the default [kind]: numpy promises the
    positions of the array in an order that sorts it, and with the default
    sorting algorithm nothing about the order of equal elements. *)
Class ArgSort := {
  argsort : list Z → list nat;
  argsort_perm : ∀ a, argsort a ≡ₚ seq 0 (length a);
  argsort_sorted : ∀ a, StronglySorted Z.le ((λ i, a !!! i) <$> argsort a)
}.

(** [D.eliminate_zeros()] *)
Definition eliminate_zeros (D : csr) : csr :=
  (λ row : list entry, filter (λ e : entry, e.2 ≠ 0) row) <$> D.

(** [a.reshape((-1, n))]: rows of [n] elements; numpy raises unless [n] is
    positive and divides the size of [a]. *)
Definition reshape {A} (a : list A) (n : Z) : option (list (list A)) :=
  if decide (0 < n ∧ (Z.of_nat (length a) mod n = 0))
  then Some ((λ i, slice a (i * Z.to_nat n) (i * Z.to_nat n + Z.to_nat n))
               <$> seq 0 (length a / Z.to_nat n)%nat)
  else None.

(** [get_indices_from_csr(conn)]:
<<
    ixs = np.ones((conn.shape[0], np.max((conn > 0).sum(1)))) * np.nan
    for i in range(ixs.shape[0]):
        cell_indices = conn[i, :].indices
        ixs[i, : len(cell_indices)] = cell_indices
    return ixs
>>
    The result is the table, or [None] for an exception, together with
    the matrix [conn] after the call: [conn > 0] has brought the caller's
    matrix to canonical form before anything else is computed.  The
    assignment raises when a row stores more entries than the width. *)
Definition get_indices_from_csr (conn : csr) : option table * csr :=
  let conn := sum_duplicates conn in
  (width ← max_list (count_positive conn);
   mapM (λ row : list entry,
           let cell_indices := fst <$> row in
           if decide (length cell_indices ≤ width)%nat
           then Some ((Some <$> cell_indices)
                      ++ replicate (width - length cell_indices) None)
           else None) conn,
   conn).

(** [compute_connectivities_umap] of [scvelo.preprocessing.neighbors] is a
    collaborator outside the sources: from the neighbour indices and
    distances, the number of cells and the number of neighbours it gives
    the connectivity matrix. *)
Class ConnectivityKernel := {
  compute_connectivities_umap :
    list (list nat) → list (list Z) → nat → Z → csr
}.

Inductive mode :=
| Distances
| Connectivities
| OtherMode (name : string).

Section get_indices.
Context {AS : ArgSort} {CK : ConnectivityKernel}.

(** The body of the loop over [rows]:
<<
    n0, n1 = cumsum_neighs[row], cumsum_neighs[row + 1]
    rm_idx = n0 + dat[n0:n1].argsort()[n_neighbors:]
    dat[rm_idx] = 0
>> *)
Definition rm_idx (cumsum_neighs : list nat) (n_neighbors : Z)
    (dat : list Z) (row : nat) : list nat :=
  let n0 := cumsum_neighs !!! row in
  let n1 := cumsum_neighs !!! (row + 1)%nat in
  (λ i, n0 + i)%nat <$> slice_from (argsort (slice dat n0 n1)) n_neighbors.

Definition prune_row (cumsum_neighs : list nat) (n_neighbors : Z)
    (dat : list Z) (row : nat) : list Z :=
  set_zero dat (rm_idx cumsum_neighs n_neighbors dat row).

(** The end of the function:
<<
    if mode_neighbors == "distances":
        indices = D.indices.reshape((-1, n_neighbors))
    elif mode_neighbors == "connectivities":
        knn_indices = D.indices.reshape((-1, n_neighbors))
        knn_distances = D.data.reshape((-1, n_neighbors))
        _, conn = compute_connectivities_umap(
            knn_indices, knn_distances, D.shape[0], n_neighbors
        )
        indices = get_indices_from_csr(conn)
    return indices, D
>>
    With any other mode [indices] is unbound at the [return]. *)
Definition neighbor_indices (mode_neighbors : mode) (n_neighbors : Z)
    (D : csr) : option table :=
  match mode_neighbors with
  | Distances =>
      reshape (csr_indices D) n_neighbors ≫= λ indices : list (list nat),
      Some ((λ r : list nat, Some <$> r) <$> indices)
  | Connectivities =>
      knn_indices ← reshape (csr_indices D) n_neighbors;
      knn_distances ← reshape (csr_data D) n_neighbors;
      let conn :=
        compute_connectivities_umap knn_indices knn_distances (length D)
                                    n_neighbors in
      (get_indices_from_csr conn).1
  | OtherMode _ => None
  end.

(** [min(n_counts.min(), n_neighbors)], or [n_counts.min()] for [None]. *)
Definition effective_neighbors (n_counts : list nat) (n_neighbors : option Z)
  : option Z :=
  m ← min_list n_counts;
  Some (match n_neighbors with
        | None => Z.of_nat m
        | Some k => Z.min (Z.of_nat m) k
        end).

(** [get_indices(dist, n_neighbors, mode_neighbors)], as a function of the
    value of [dist]:
<<
    D = dist.copy()
    D.data += 1e-6
    n_counts = sum(D > 0, axis=1)
    n_neighbors = (
        n_counts.min() if n_neighbors is None
        else min(n_counts.min(), n_neighbors))
    rows = np.where(n_counts > n_neighbors)[0]
    cumsum_neighs = np.insert(n_counts.cumsum(), 0, 0)
    dat = D.data
    for row in rows:
        ...
    D.eliminate_zeros()
    D.data -= 1e-6
    ...
    return indices, D
>>
    [None] stands for an exception.  The comparison [D > 0] leaves [D] in
    canonical form, so that [dat] is the data of the canonical [D]. *)
Definition get_indices (dist : csr) (n_neighbors : option Z)
    (mode_neighbors : mode) : option (table * csr) :=
  let D := dist in
  let D := data_add eps D in
  let D := sum_duplicates D in
  let n_counts := count_positive D in
  n_neighbors ← effective_neighbors n_counts n_neighbors;
  let rows := where_gt n_counts n_neighbors in
  let cumsum_neighs := cumsum_neighs n_counts in
  let dat := csr_data D in
  let dat := foldl (prune_row cumsum_neighs n_neighbors) dat rows in
  let D := with_data D dat in
  let D := eliminate_zeros D in
  let D := data_add (- eps) D in
  indices ← neighbor_indices mode_neighbors n_neighbors D;
  Some (indices, D).

End get_indices.

(** ** The store, and [get_indices] as the program that mutates it

    Matrices are objects in a store; a variable holds the location of its
    object, so two variables can name one object.  A statement that changes
    a matrix in place changes the object at a location. *)

Abbreviation loc := nat.
Abbreviation store := (gmap loc csr).

(** A command returns a value or raises ([None]), and leaves a store. *)
Definition St (A : Type) : Type := store → option A * store.

Global Instance St_ret : MRet St := λ A a h, (Some a, h).

Global Instance St_bind : MBind St := λ A B f m h,
  match m h with
  | (Some a, h') => f a h'
  | (None, h') => (None, h')
  end.

(** A computation without effect that may raise. *)
Definition lift {A} (o : option A) : St A := λ h, (o, h).

(** [x.copy()]: a new object with a copy of the arrays of [x]. *)
Definition copy (x : loc) : St loc := λ h,
  match h !! x with
  | Some m => let x' := fresh (dom h) in (Some x', <[x' := m]> h)
  | None => (None, h)
  end.

(** Reading the object at [x], and changing it in place. *)
Definition read (x : loc) : St csr := λ h, (h !! x, h).

Definition update (x : loc) (f : csr → csr) : St unit := λ h,
  match h !! x with
  | Some m => (Some (), <[x := f m]> h)
  | None => (None, h)
  end.

(** [x.data += c], [x.sum_duplicates()], [x.data[idx] = 0] and
    [x.eliminate_zeros()] *)
Definition data_iadd (x : loc) (c : Z) : St unit := update x (data_add c).

Definition sum_duplicates_inplace (x : loc) : St unit :=
  update x sum_duplicates.

Definition data_set_zero (x : loc) (idx : list nat) : St unit :=
  update x (λ m, with_data m (set_zero (csr_data m) idx)).

Definition eliminate_zeros_inplace (x : loc) : St unit :=
  update x eliminate_zeros.

(** [for a in l: body] *)
Fixpoint for_each {A} (l : list A) (body : A → St unit) : St unit :=
  match l with
  | [] => mret ()
  | a :: l' => _ ← body a; for_each l' body
  end.

(** [get_indices] statement by statement; the comparison [D > 0] brings
    the object at [D] to canonical form; [dat] is the array [D.data]
    itself, so that reading and writing [dat] reads and writes the object
    at [D]. *)
Definition get_indices_st {AS : ArgSort} {CK : ConnectivityKernel}
    (dist : loc) (n_neighbors : option Z) (mode_neighbors : mode)
  : St (table * loc) :=
  D ← copy dist;
  _ ← data_iadd D eps;
  _ ← sum_duplicates_inplace D;
  m ← read D;
  let n_counts := count_positive m in
  n_neighbors ← lift (effective_neighbors n_counts n_neighbors);
  let rows := where_gt n_counts n_neighbors in
  let cumsum_neighs := cumsum_neighs n_counts in
  _ ← for_each rows (λ row,
        m ← read D;
        let dat := csr_data m in
        data_set_zero D (rm_idx cumsum_neighs n_neighbors dat row));
  _ ← eliminate_zeros_inplace D;
  _ ← data_iadd D (- eps);
  m ← read D;
  indices ← lift (neighbor_indices mode_neighbors n_neighbors m);
  mret (indices, D).

(** *** The vocabulary of the statements about [get_indices] *)

(** Distances are not negative. *)
Definition nonneg (D : csr) : Prop :=
  Forall (Forall (λ e : entry, 0 ≤ e.2)) D.

(** What the loop does to the values of one row: the positions that
    [argsort] ranks from [n_neighbors] on are set to zero. *)
Definition zero_far `{ArgSort} (n_neighbors : Z) (seg : list Z) : list Z :=
  set_zero seg (slice_from (argsort seg) n_neighbors).

(** The whole function on one row: shift by [eps], zero the far entries,
    drop the zeros, shift back. *)
Definition prune1 `{ArgSort} (n_neighbors : Z) (row : list entry)
  : list entry :=
  let row1 := (λ e : entry, (e.1, e.2 + eps)) <$> row in
  (λ e : entry, (e.1, e.2 + - eps))
    <$> filter (λ e : entry, e.2 ≠ 0)
               (zip (fst <$> row1) (zero_far n_neighbors (snd <$> row1))).

(** [row'] keeps [k] entries of [row]: the entries at [k] positions, in
    storage order, each with a distance no larger than that of any entry
    left out. *)
Definition pruned_row (k : nat) (row row' : list entry) : Prop :=
  ∃ kept : list nat,
    StronglySorted lt kept ∧ length kept = k
    ∧ Forall2 (λ i e, row !! i = Some e) kept row'
    ∧ ∀ i j e e', i ∈ kept → j ∉ kept →
        row !! i = Some e → row !! j = Some e' → e.2 ≤ e'.2.


(** The value of a row, and of a matrix, once [get_indices] has brought
    its copy to canonical form: the entries by increasing column index;
    the values stored under one column index are added up, each but one
    with the [eps] that was added to it before. *)
Definition canonical_row (row : list entry) : list entry :=
  (λ e : entry, (e.1, e.2 + - eps))
    <$> sum_duplicates_row ((λ e : entry, (e.1, e.2 + eps)) <$> row).

Definition canonical (D : csr) : csr := canonical_row <$> D.

(** A row is stored in canonical form when its column indices increase;
    no column index is stored twice when they are distinct. *)
Definition sorted_columns (row : list entry) : Prop :=
  StronglySorted lt row.*1.




(** A way to sort positions: a merge sort of the pairs of a position and
    its value, by value and among equal values the earlier position
    first. *)
Definition argsort_by (R : relation entry) `{∀ x y, Decision (R x y)}
    (a : list Z) : list nat :=
  fst <$> merge_sort R (zip (seq 0 (length a)) a).

Definition by_value_earlier_first : relation entry :=
  λ x y, x.2 < y.2 ∨ (x.2 = y.2 ∧ (x.1 ≤ y.1)%nat).



(** ** Bookkeeping helpers of [scvelo/tools/utils.py] *)

Section items.
Context {A : Type} `{EqDecision A}.

(** [lst.count(x)] *)
Definition count_in (x : A) (lst : list A) : nat :=
  length (filter (λ y, y = x) lst).

(** [collections.Counter(array)]: a dict, so the distinct items in the
    order in which they first occur, each with its number of occurrences;
    an item met again has its count raised in place. *)
Fixpoint counter_add (x : A) (c : list (A * nat)) : list (A * nat) :=
  match c with
  | [] => [(x, 1%nat)]
  | (y, n) :: c' =>
      if decide (x = y) then (y, S n) :: c' else (y, n) :: counter_add x c'
  end.

Definition Counter (array : list A) : list (A * nat) :=
  foldl (λ c x, counter_add x c) [] array.

(** What a counter holds after counting the items of [l]: one entry for
    each item that occurs, with the number of its occurrences. *)
Definition counter_ok (c : list (A * nat)) (l : list A) : Prop :=
  NoDup c.*1
  ∧ ∀ y n, (y, n) ∈ c ↔ (0 < n)%nat ∧ n = count_in y l.

(** The distinct items of a list in the order in which they first occur:
    an item comes first, then the rest without it. *)
Fixpoint first_occurrences (l : list A) : list A :=
  match l with
  | [] => []
  | x :: l' => x :: filter (λ y, y ≠ x) (first_occurrences l')
  end.

(** [get_duplicates(array)]:
<<
    return np.array(
        [item for (item, count) in Counter(array).items() if count > 1])
>> *)
Definition get_duplicates (array : list A) : list A :=
  fst <$> filter (λ p : A * nat, (1 < p.2)%nat) (Counter array).

(** [isin(x, y)], for a one-dimensional [x]:
<<
    return np.array(pd.DataFrame(x).isin(y)).flatten()
>> *)
Definition isin (x y : list A) : list bool :=
  (λ v, bool_decide (v ∈ y)) <$> x.

(** [max(s, key=key)]: the first of the items with the largest key;
    raises on an empty [s]. *)
Definition max_by_key (key : A → nat) (s : list A) : option A :=
  match s with
  | [] => None
  | x :: s' =>
      Some (foldl (λ best y, if decide (key best < key y)%nat then y else best)
                  x s')
  end.

End items.

(** [indices_to_bool(indices, n)]:
<<
    return isin(np.arange(n), indices)
>> *)
Definition indices_to_bool (indices : list nat) (n : Z) : list bool :=
  isin (seq 0 (Z.to_nat n)) indices.

(** The items of the lists given to [most_common_in_list]: the object
    [np.nan], or a string. *)
Inductive item :=
| NaN
| Str (s : string).

Global Instance item_eq_dec : EqDecision item.
Proof. solve_decision. Defined.

(** [most_common_in_list(lst)]:
<<
    lst = [item for item in lst if item is not np.nan and item != "nan"]
    lst = list(lst)
    return max(set(lst), key=lst.count)
>>
    The order in which [set(lst)] is gone through is not fixed by the
    language; [set_order] gives it. *)
Definition most_common_in_list (set_order : list item → list item)
    (lst : list item) : option item :=
  let lst := filter (λ it, it ≠ NaN ∧ it ≠ Str "nan") lst in
  max_by_key (λ it, count_in it lst) (set_order lst).

(** What is known of [set(lst)]: its elements are those of the list, each
    once. *)
Definition set_order_ok (set_order : list item → list item) : Prop :=
  ∀ l, NoDup (set_order l) ∧ ∀ x, x ∈ set_order l ↔ x ∈ l.

(** ** [extract_int_from_str] *)

(** [str.isdigit] and the value of a digit, on the characters ['0'] to
    ['9'] of the ASCII range. *)
Definition isdigit (c : Ascii.ascii) : bool :=
  match Ascii.is_nat c with Some _ => true | None => false end.

Definition digit_value (c : Ascii.ascii) : Z :=
  match Ascii.is_nat c with Some d => Z.of_nat d | None => 0 end.

(** [filter(str.isdigit, item)] *)
Definition digits_of (item : string) : list Ascii.ascii :=
  filter (λ c, isdigit c = true) (String.list_ascii_of_string item).

(** [int(num)] on a string of digits. *)
Definition int_of_digits (num : list Ascii.ascii) : Z :=
  foldl (λ acc c, 10 * acc + digit_value c) 0 num.

(** The inner function:
<<
    def str_to_int(item):
        num = "".join(filter(str.isdigit, item))
        num = int(num) if len(num) > 0 else -1
        return num
>> *)
Definition str_to_int (item : string) : Z :=
  let num := digits_of item in
  if decide (0 < length num)%nat then int_of_digits num else -1.

(** A string of the ASCII range, and an integer of the [int64] range. *)
Definition is_ascii (s : string) : Prop :=
  Forall (λ c, (Ascii.nat_of_ascii c < 128)%nat)
         (String.list_ascii_of_string s).

Definition int64 (z : Z) : Prop := - 2 ^ 63 ≤ z < 2 ^ 63.

(** What [extract_int_from_str] returns for an array of strings: an array
    of integers, the array of strings as it was, or an array that this
    development does not describe. *)
Inductive nums :=
| Ints (l : list Z)
| Strs (l : list string)
| Other.

(** [np.array(nums)] on a list of Python integers: an integer array of
    the same values when every one is in the [int64] range; otherwise
    numpy chooses another type ([uint64], [float64] or [object]), and the
    values may be rounded. *)
Definition np_array (values : list Z) : nums :=
  if decide (Forall int64 values) then Ints values else Other.

(** [extract_int_from_str(array)] on an array or series of strings (the
    argument has a [dtype]; the values of the result are the same with the
    [category] type and without):
<<
    if isinstance(array, str):
        nums = str_to_int(array)
    elif len(array) > 1 and isinstance(array[0], str):
        nums = []
        for item in array:
            nums.append(str_to_int(item))
    else:
        nums = array
    nums = pd.Categorical(nums) if array.dtype == "category" else np.array(nums)
    return nums
>>
    Outside the ASCII range [str.isdigit] and [int] know more digits than
    ['0'] to ['9']; strings with such characters are not described. *)
Definition extract_int_from_str (array : list string) : nums :=
  if decide (1 < length array)%nat
  then
    if decide (Forall is_ascii array)
    then np_array (foldl (λ nums item, nums ++ [str_to_int item]) [] array)
    else Other
  else Strs array.

(** ** [cleanup] and [set_initial_size] of [scvelo/preprocessing/utils.py] *)

(** The annotated data matrix, as far as these functions use it: the
    columns of [obs] and [var], the entries of [uns] and the layers, by
    name. *)
Record anndata (O V U L : Type) := AnnData {
  adata_obs : gmap string O;
  adata_var : gmap string V;
  adata_uns : gmap string U;
  adata_layers : gmap string L;
}.
Arguments AnnData {O V U L} _ _ _ _.
Arguments adata_obs {O V U L} _.
Arguments adata_var {O V U L} _.
Arguments adata_uns {O V U L} _.
Arguments adata_layers {O V U L} _.

(** The arguments [clean] and [keep] are a [str] or a collection of
    [str]s; [x in names] is the substring test on a [str] and membership
    in a collection. *)
Inductive names :=
| OneStr (s : string)
| Many (l : list string).

Fixpoint is_substring (x s : string) : bool :=
  String.prefix x s
  || match s with
     | EmptyString => false
     | String _ s' => is_substring x s'
     end.

Definition contains (x : string) (ns : names) : bool :=
  match ns with
  | OneStr s => is_substring x s
  | Many l => bool_decide (x ∈ l)
  end.

(** [any([attr in clean, 'all' in clean])] *)
Definition selected (attr : string) (clean : names) : bool :=
  contains attr clean || contains "all" clean.

(** [for key in list(m.keys()): if key not in keep: del m[key]] *)
Definition delete_unkept {T} (keep : names) (m : gmap string T)
    : gmap string T :=
  foldl (λ m key, if contains key keep then m else delete key m)
        m (map_to_list m).*1.

Section anndata.
Context {O V U L : Type}.

(** [cleanup(data, clean, keep, copy)]: the value returned and the data
    after the call.  With [copy] the deletions are made on a copy. *)
Definition cleanup (data : anndata O V U L) (clean keep : names)
    (copy : bool) : option (anndata O V U L) * anndata O V U L :=
  let adata := data in
  let adata :=
    if selected "obs" clean
    then AnnData (delete_unkept keep (adata_obs adata)) (adata_var adata)
                 (adata_uns adata) (adata_layers adata)
    else adata in
  let adata :=
    if selected "var" clean
    then AnnData (adata_obs adata) (delete_unkept keep (adata_var adata))
                 (adata_uns adata) (adata_layers adata)
    else adata in
  let adata :=
    if selected "uns" clean
    then AnnData (adata_obs adata) (adata_var adata)
                 (delete_unkept keep (adata_uns adata)) (adata_layers adata)
    else adata in
  let adata :=
    if selected "layers" clean
    then AnnData (adata_obs adata) (adata_var adata) (adata_uns adata)
                 (delete_unkept keep (adata_layers adata))
    else adata in
  if copy then (Some adata, data) else (None, adata).

End anndata.

(** A layer is a dense or a sparse matrix; [X.sum(1)] is the list of its
    row sums. *)
Inductive layer :=
| Dense (X : matrix)
| Sparse (X : csr).

Definition sum_rows (X : layer) : list Z :=
  match X with
  | Dense X => (λ row, foldr Z.add 0 row) <$> X
  | Sparse X => (λ row : list entry, foldr Z.add 0 row.*2) <$> X
  end.

(** [set_initial_size(adata, layers)]: the data after the call, or the
    name of a layer whose lookup failed.
<<
    if all([layer in adata.layers.keys() for layer in layers]):
        for layer in layers:
            X = adata.layers[layer]
            adata.obs['initial_size_' + layer] = X.sum(1)
>> *)
Definition set_initial_size {V U} (adata : anndata (list Z) V U layer)
    (layers : list string) : outcome (anndata (list Z) V U layer) :=
  if forallb (λ l, bool_decide (is_Some (adata_layers adata !! l))) layers
  then
    foldl (λ acc l,
             match acc with
             | Returns adata =>
                 match adata_layers adata !! l with
                 | Some X =>
                     Returns
                       (AnnData (<["initial_size_" +:+ l := sum_rows X]>
                                   (adata_obs adata))
                                (adata_var adata) (adata_uns adata)
                                (adata_layers adata))
                 | None => KeyError l
                 end
             | _ => acc
             end)
          (Returns adata) layers
  else Returns adata.

(** ** Example inputs *)

(** The table of the specification's example: three cells, each with the
    other two as neighbours. *)
Definition triangle : table :=
  [[Some 1; Some 2]; [Some 0; Some 2]; [Some 0; Some 1]]%nat.

(** Four cells in a row, each with the next one as its only neighbour; the
    second column is padding. *)
Definition chain : table :=
  [[Some 1; None]; [Some 2; None]; [Some 3; None]; [None; None]]%nat.

(** The distance matrix of the specification's example: five cells, each
    row storing the distances 0.1, 0.3, 0.2, 0.4 to the other four. *)
Definition five_cells : csr :=
  [ [(1%nat, 100000); (2%nat, 300000); (3%nat, 200000); (4%nat, 400000)];
    [(0%nat, 100000); (2%nat, 300000); (3%nat, 200000); (4%nat, 400000)];
    [(0%nat, 100000); (1%nat, 300000); (3%nat, 200000); (4%nat, 400000)];
    [(0%nat, 100000); (1%nat, 300000); (2%nat, 200000); (4%nat, 400000)];
    [(0%nat, 100000); (1%nat, 300000); (2%nat, 200000); (3%nat, 400000)] ].

(** Three cells at the same distance from one another. *)
Definition equidistant : csr :=
  [ [(1%nat, 5); (2%nat, 5)]; [(0%nat, 5); (2%nat, 5)];
    [(0%nat, 5); (1%nat, 5)] ].



(** A stand-in for the connectivity kernel: the matrix of the neighbour
    distances themselves. *)
Definition distance_kernel : ConnectivityKernel :=
  {| compute_connectivities_umap knn_indices knn_distances _ _ :=
       zip_with zip knn_indices knn_distances |}.

(** * Part II: properties *)

(** ** Matrix algebra *)

Section matrix_algebra.
Implicit Types (A B C : matrix) (u v w : list Z).

Lemma vadd_assoc u v w : vadd u (vadd v w) = vadd (vadd u v) w.
Proof.
  revert v w. induction u as [|x u IH]; intros [|y v] [|z w]; simpl; try done.
  f_equal; [lia | apply IH].
Qed.

Lemma madd_assoc A B C : madd A (madd B C) = madd (madd A B) C.
Proof.
  revert B C. induction A as [|x A IH]; intros [|y B] [|z C]; simpl; try done.
  f_equal; [apply vadd_assoc | apply IH].
Qed.

Lemma vadd_scale_zero u : vadd u ((λ x, x * 0) <$> u) = u.
Proof. induction u as [|x u IH]; simpl; [done|]. f_equal; [lia | apply IH]. Qed.

Lemma madd_dot_zero C : madd C (dot C (Scalar 0)) = C.
Proof.
  simpl. induction C as [|r C IH]; simpl; [done|].
  f_equal; [apply vadd_scale_zero | apply IH].
Qed.

Lemma length_vadd u v : length u = length v → length (vadd u v) = length u.
Proof. intros H. unfold vadd. rewrite length_zip_with. lia. Qed.

Lemma square_madd n A B : square n A → square n B → square n (madd A B).
Proof.
  intros [HA1 HA2] [HB1 HB2]. split.
  - unfold madd. rewrite length_zip_with. lia.
  - clear HA1 HB1. revert B HB2.
    induction HA2 as [|r A Hr HA IH]; intros [|s B] HB; simpl; try constructor.
    + inversion HB; subst. rewrite length_vadd; lia.
    + inversion HB; subst. by apply IH.
Qed.

Lemma ncols_square n C : square n C → ncols C = n.
Proof.
  intros [H1 H2]. unfold ncols. destruct H2 as [|r C Hr _]; simpl in *; lia.
Qed.

Lemma square_mmul n A B : square n A → square n B → square n (mmul A B).
Proof.
  intros [HA1 HA2] HB. split.
  - unfold mmul. by rewrite length_fmap.
  - unfold mmul. apply Forall_fmap, Forall_forall. intros r _. simpl.
    rewrite length_fmap, length_seq. by apply ncols_square.
Qed.

Lemma square_identity n : square n (identity n).
Proof.
  split.
  - unfold identity. by rewrite length_fmap, length_seq.
  - unfold identity. apply Forall_fmap, Forall_forall. intros i _. simpl.
    by rewrite length_fmap, length_seq.
Qed.

Lemma square_zeros n : square n (zeros n).
Proof.
  split.
  - unfold zeros. by rewrite length_replicate.
  - unfold zeros. apply Forall_replicate. by rewrite length_replicate.
Qed.

Lemma square_mpow n C k : square n C → square n (mpow C k).
Proof.
  intros HC. induction k as [|k IH]; simpl.
  - destruct HC as [<- _]. apply square_identity.
  - by apply square_mmul.
Qed.

Lemma square_power_sum n C k : square n C → square n (power_sum C k).
Proof.
  intros HC. induction k as [|k IH].
  - simpl. destruct HC as [<- _]. apply square_zeros.
  - change (power_sum C (S k)) with (madd (power_sum C k) (mpow C (S k))).
    apply square_madd; [done | by apply square_mpow].
Qed.

Lemma dotp_vadd_r u v w :
  length v = length w → dotp u (vadd v w) = dotp u v + dotp u w.
Proof.
  revert v w. induction u as [|x u IH]; intros [|y v] [|z w] H;
    simplify_eq/=; try done.
  unfold dotp in *. simpl. rewrite IH by done. lia.
Qed.

Lemma nth_vadd j u v :
  length u = length v → nth j (vadd u v) 0 = nth j u 0 + nth j v 0.
Proof.
  revert u v. induction j as [|j IH]; intros [|x u] [|y v] H;
    simplify_eq/=; try done.
  by apply IH.
Qed.

Lemma col_madd n j A B :
  square n A → square n B → col j (madd A B) = vadd (col j A) (col j B).
Proof.
  intros [HA1 HA2] [HB1 HB2]. clear HA1 HB1. revert B HB2.
  induction HA2 as [|r A Hr HA IH]; intros [|s B] HB; simpl; try done.
  inversion HB; subst. f_equal; [apply nth_vadd; lia | by apply IH].
Qed.

Lemma length_col j A : length (col j A) = length A.
Proof. unfold col. by rewrite length_fmap. Qed.

Lemma mmul_madd_distr n C A B :
  square n A → square n B →
  mmul C (madd A B) = madd (mmul C A) (mmul C B).
Proof.
  intros HA HB. unfold mmul.
  rewrite (ncols_square n (madd A B)) by by apply square_madd.
  rewrite (ncols_square n A), (ncols_square n B) by done.
  induction C as [|r C IH]; simpl; [done|]. f_equal; [|apply IH].
  generalize (seq 0 n). intros js.
  induction js as [|j js IHj]; simpl; [done|]. f_equal; [|apply IHj].
  rewrite (col_madd n) by done. apply dotp_vadd_r.
  rewrite !length_col. destruct HA as [-> _], HB as [-> _]. done.
Qed.

Lemma vadd_zeros_l m u : length u = m → vadd (replicate m 0) u = u.
Proof.
  intros <-. induction u as [|x u IH]; simpl; [done|]. by rewrite IH.
Qed.

Lemma madd_zeros_l n A : square n A → madd (zeros n) A = A.
Proof.
  intros [H1 H2]. unfold zeros. revert H1. generalize n at 1 2. intros m <-.
  induction H2 as [|r A Hr HA IH]; simpl; [done|].
  by rewrite vadd_zeros_l, IH.
Qed.

Lemma dotp_unit j u s :
  dotp u ((λ i, if decide (i = j) then 1 else 0) <$> seq s (length u))
  = if decide (s ≤ j)%nat then nth (j - s) u 0 else 0.
Proof.
  revert s. induction u as [|x u IH]; intros s; simpl.
  - by destruct (j - s)%nat; case_decide.
  - unfold dotp in *. simpl. rewrite IH.
    repeat case_decide; try lia.
    + subst. by rewrite Nat.sub_diag, Z.mul_1_r, Z.add_0_r.
    + replace (j - s)%nat with (S (j - S s)) by lia. simpl. lia.
Qed.

Lemma col_identity j n :
  (j < n)%nat →
  col j (identity n) = (λ i, if decide (i = j) then 1 else 0) <$> seq 0 n.
Proof.
  intros Hj. unfold col, identity. rewrite <-list_fmap_compose.
  apply list_fmap_ext. intros k i Hi. simpl.
  apply lookup_seq in Hi as [Hi _]. simpl in Hi. subst i.
  apply nth_lookup_Some.
  by rewrite list_lookup_fmap, lookup_seq_lt.
Qed.

Lemma mmul_identity_r n C : square n C → mmul C (identity n) = C.
Proof.
  intros [H1 H2]. unfold mmul.
  rewrite (ncols_square n) by apply square_identity.
  clear H1. induction H2 as [|r C Hr HC IH]; simpl; [done|].
  f_equal; [|done]. apply list_eq. intros j.
  rewrite list_lookup_fmap. destruct (decide (j < n)%nat) as [Hj|Hj].
  - rewrite lookup_seq_lt by done. simpl.
    rewrite col_identity by done. rewrite <-Hr, dotp_unit.
    rewrite decide_True by lia. rewrite Nat.sub_0_r.
    destruct (lookup_lt_is_Some_2 r j) as [x Hx]; [lia|].
    rewrite Hx. f_equal. by apply nth_lookup_Some.
  - rewrite lookup_seq_ge by lia. simpl. symmetry.
    apply lookup_ge_None. lia.
Qed.

Lemma mpow_1 n C : square n C → mpow C 1 = C.
Proof. intros HC. simpl. destruct HC as [HC1 HC2]. rewrite HC1. by apply mmul_identity_r. Qed.

End matrix_algebra.

(** ** [geometric_matrix_sum] *)

Lemma geometric_matrix_sum_eq C n_power :
  geometric_matrix_sum C n_power =
    madd C (dot C (if decide (n_power > 2)
                   then Mat (geometric_matrix_sum C (n_power - 1))
                   else if decide (n_power > 1) then Mat C else Scalar 0)).
Proof. rewrite geometric_matrix_sum_equation_1. by destruct (decide _). Qed.

Lemma geometric_matrix_sum_1 C : geometric_matrix_sum C 1 = C.
Proof.
  rewrite geometric_matrix_sum_eq.
  rewrite !decide_False by lia. apply madd_dot_zero.
Qed.

Lemma geometric_matrix_sum_step C n :
  n > 1 →
  geometric_matrix_sum C n = madd C (mmul C (geometric_matrix_sum C (n - 1))).
Proof.
  intros Hn. rewrite geometric_matrix_sum_eq.
  destruct (decide (n > 2)) as [H2|H2]; [done|].
  rewrite decide_True by done. simpl.
  replace (n - 1) with 1 by lia. by rewrite geometric_matrix_sum_1.
Qed.

Lemma square_geometric_matrix_sum k C (n : nat) :
  square k C → square k (geometric_matrix_sum C (Z.of_nat (S n))).
Proof.
  intros HC. induction n as [|n IH].
  - by rewrite geometric_matrix_sum_1.
  - rewrite geometric_matrix_sum_step by lia.
    replace (Z.of_nat (S (S n)) - 1) with (Z.of_nat (S n)) by lia.
    apply square_madd; [done|]. by apply square_mmul.
Qed.

Lemma power_sum_S C n :
  power_sum C (S n) = madd (power_sum C n) (mpow C (S n)).
Proof. done. Qed.

Lemma power_sum_1 k C : square k C → power_sum C 1 = C.
Proof.
  intros HC. rewrite power_sum_S, (mpow_1 k) by done. simpl.
  destruct HC as [HC1 HC2]. rewrite HC1. by apply madd_zeros_l.
Qed.

Lemma power_sum_step k C (m : nat) :
  square k C →
  madd C (mmul C (power_sum C (S m))) = power_sum C (S (S m)).
Proof.
  intros HC. induction m as [|m IH].
  - rewrite (power_sum_S C 1), (power_sum_1 k) by done.
    change (mpow C 2) with (mmul C (mpow C 1)). by rewrite (mpow_1 k).
  - rewrite (power_sum_S C (S (S m))), (power_sum_S C (S m)) at 1.
    rewrite (mmul_madd_distr k)
      by (by apply square_power_sum || by apply square_mpow).
    by rewrite madd_assoc, IH.
Qed.

Lemma geometric_matrix_sum_power_sum k C (n : nat) :
  square k C →
  geometric_matrix_sum C (Z.of_nat (S n)) = power_sum C (S n).
Proof.
  intros HC. induction n as [|n IH].
  - by rewrite geometric_matrix_sum_1, (power_sum_1 k).
  - rewrite geometric_matrix_sum_step by lia.
    replace (Z.of_nat (S (S n)) - 1) with (Z.of_nat (S n)) by lia.
    rewrite IH. by apply (power_sum_step k).
Qed.

Example geometric_matrix_sum_example :
  geometric_matrix_sum [[1; 2]; [3; 4]] 3 = [[45; 66]; [99; 144]].
Proof. vm_compute. reflexivity. Qed.

(** C1. For a square matrix [C] and [n_power >= 1],
    [geometric_matrix_sum C n_power] is the sum of the matrix powers
    [C + C^2 + ... + C^n_power]; at [n_power = 1] it is [C]; and for
    [n_power > 1] it is [C] plus [C] times the sum at [n_power - 1]. *)
Theorem geometric_matrix_sum_correct (k : nat) (C : matrix) (n_power : Z) :
  square k C → 1 ≤ n_power →
  geometric_matrix_sum C n_power = power_sum C (Z.to_nat n_power)
  ∧ geometric_matrix_sum C 1 = C
  ∧ (n_power > 1 →
     geometric_matrix_sum C n_power
     = madd C (dot C (Mat (geometric_matrix_sum C (n_power - 1))))).
Proof.
  intros HC Hn. split; [|split].
  - destruct (Z.to_nat n_power) as [|m] eqn:Hm; [lia|].
    replace n_power with (Z.of_nat (S m)) by lia.
    by apply (geometric_matrix_sum_power_sum k).
  - apply geometric_matrix_sum_1.
  - intros Hgt. simpl. by apply geometric_matrix_sum_step.
Qed.

Lemma geometric_matrix_sum_correct_witness :
  let C := [[1; 2]; [3; 4]] in
  square 2 C ∧ 1 ≤ 3
  ∧ geometric_matrix_sum C 3 = power_sum C 3
  ∧ geometric_matrix_sum C 1 = C
  ∧ (3 > 1 →
     geometric_matrix_sum C 3 = madd C (dot C (Mat (geometric_matrix_sum C 2)))).
Proof.
  intros C.
  assert (HC : square 2 C) by (split; [reflexivity | repeat constructor]).
  assert (Hn : 1 ≤ 3) by lia.
  split; [exact HC | split; [exact Hn |]].
  exact (geometric_matrix_sum_correct 2 C 3 HC Hn).
Defined.




(** ** [np.unique] *)

Lemma elem_of_insert_unique x l z : z ∈ insert_unique x l ↔ z = x ∨ z ∈ l.
Proof.
  induction l as [|y l IH]; simpl.
  - set_solver.
  - repeat case_decide; subst; rewrite ?elem_of_cons, ?IH, ?elem_of_cons; tauto.
Qed.

Lemma elem_of_unique l z : z ∈ unique l ↔ z ∈ l.
Proof.
  induction l as [|x l IH]; simpl; [done|].
  rewrite elem_of_insert_unique, elem_of_cons, IH. done.
Qed.

Lemma insert_unique_sorted x l :
  StronglySorted lt l → StronglySorted lt (insert_unique x l).
Proof.
  induction 1 as [|y l Hl IH Hy]; simpl.
  - repeat constructor.
  - repeat case_decide; subst.
    + constructor; [by constructor|]. constructor; [done|].
      eapply Forall_impl; [exact Hy|]. simpl. lia.
    + by constructor.
    + constructor; [done|]. apply Forall_forall. intros z Hz.
      apply elem_of_insert_unique in Hz as [->|Hz]; [lia|].
      by eapply Forall_forall in Hy.
Qed.

Lemma unique_sorted l : StronglySorted lt (unique l).
Proof.
  induction l as [|x l IH]; simpl; [constructor | by apply insert_unique_sorted].
Qed.

Lemma sorted_lt_NoDup (l : list nat) : StronglySorted lt l → NoDup l.
Proof.
  induction 1 as [|y l Hl IH Hy]; constructor; [|done].
  intros Hin. eapply Forall_forall in Hy; [|exact Hin]. lia.
Qed.

Lemma unique_NoDup l : NoDup (unique l).
Proof. apply sorted_lt_NoDup, unique_sorted. Qed.

(** ** The neighbour closure *)

Lemma omap_id_filter_isnan (ix : list (option nat)) :
  omap id (filter (λ x, ¬ isnan x) ix) = omap id ix.
Proof.
  induction ix as [|[j|] ix IH]; [done| |].
  - rewrite filter_cons_True by (simpl; tauto).
    change (j :: omap id (filter (λ x, ¬ isnan x) ix) = j :: omap id ix).
    by rewrite IH.
  - rewrite filter_cons_False by (simpl; tauto). exact IH.
Qed.

Lemma omap_id_Some (l : list nat) : omap id (Some <$> l) = l.
Proof.
  induction l as [|x l IH]; [done|].
  change (x :: omap id (Some <$> l) = x :: l). by rewrite IH.
Qed.

Lemma append_neighbors_eq indices index :
  append_neighbors indices index =
    rows ← take_rows indices index; Some (index ++ omap id (mjoin rows)).
Proof.
  unfold append_neighbors. destruct (take_rows indices index) as [rows|]; simpl; [|done].
  f_equal. unfold astype_int.
  destruct (existsb _ _); rewrite ?omap_id_filter_isnan, omap_app, omap_id_Some; done.
Qed.

Lemma iterate_indices_eq indices index n :
  iterate_indices indices index n =
    (if decide (n > 1) then iterate_indices indices index (n - 1)
     else Some index) ≫= append_neighbors indices.
Proof. rewrite iterate_indices_equation_1. by destruct (decide _). Qed.

Lemma append_neighbors_prefix indices index r :
  append_neighbors indices index = Some r → index `prefix_of` r.
Proof.
  rewrite append_neighbors_eq. intros H.
  destruct (take_rows indices index) as [rows|]; simplify_eq/=.
  by apply prefix_app_r.
Qed.

Lemma iterate_indices_prev indices index n r :
  n > 1 → iterate_indices indices index n = Some r →
  ∃ r', iterate_indices indices index (n - 1) = Some r' ∧ r' `prefix_of` r.
Proof.
  intros Hn. rewrite iterate_indices_eq, decide_True by done. intros H.
  destruct (iterate_indices indices index (n - 1)) as [r'|]; simplify_eq/=.
  exists r'. split; [done|]. by eapply append_neighbors_prefix.
Qed.

Lemma iterate_indices_prefix indices index n r :
  iterate_indices indices index n = Some r → index `prefix_of` r.
Proof.
  remember (Z.to_nat n) as k eqn:Hk. revert n r Hk.
  induction k as [|k IH]; intros n r Hk;
    rewrite iterate_indices_eq; case_decide; try lia; intros Hr; simpl in Hr.
  - by eapply append_neighbors_prefix.
  - destruct (iterate_indices indices index (n - 1)) as [r'|] eqn:Hr';
      simplify_eq/=.
    etrans; [eapply (IH (n - 1)); [lia | done]|].
    by eapply append_neighbors_prefix.
  - by eapply append_neighbors_prefix.
Qed.

Lemma append_neighbors_total indices index :
  table_ok indices → rows_in_range indices index →
  ∃ r, append_neighbors indices index = Some r ∧ rows_in_range indices r.
Proof.
  intros Hok Hix. rewrite append_neighbors_eq.
  assert (∃ rows, take_rows indices index = Some rows
                  ∧ Forall (λ row, row ∈ indices) rows) as (rows & -> & Hrows).
  { unfold take_rows. induction Hix as [|i index Hi Hix IH].
    - by exists [].
    - destruct IH as (rows & Hr & Hrows).
      destruct (lookup_lt_is_Some_2 indices i Hi) as [row Hrow].
      exists (row :: rows). split.
      + apply mapM_Some. constructor; [done|]. by apply mapM_Some.
      + constructor; [|done]. by eapply list_elem_of_lookup_2. }
  simpl. eexists. split; [done|].
  apply Forall_app. split; [done|].
  apply Forall_forall. intros j Hj.
  apply list_elem_of_omap in Hj as (e & He & Hej). simpl in Hej. subst e.
  apply list_elem_of_join in He as (row & Hjrow & Hrow).
  eapply Forall_forall in Hrows; [|exact Hrow].
  unfold table_ok in Hok. eapply Forall_forall in Hok; [|exact Hrows].
  eapply Forall_forall in Hok; [|exact Hjrow]. done.
Qed.

Lemma iterate_indices_total indices index n :
  table_ok indices → rows_in_range indices index →
  ∃ r, iterate_indices indices index n = Some r ∧ rows_in_range indices r.
Proof.
  intros Hok Hix. remember (Z.to_nat n) as k eqn:Hk. revert n Hk.
  induction k as [|k IH]; intros n Hk;
    rewrite iterate_indices_eq; case_decide; try lia; simpl.
  - by apply append_neighbors_total.
  - destruct (IH (n - 1)) as (r' & -> & Hr'); [lia|]. simpl.
    by apply append_neighbors_total.
  - by apply append_neighbors_total.
Qed.

Lemma get_iterative_indices_uncapped rng indices index d :
  get_iterative_indices rng indices index d None
  = unique <$> iterate_indices indices [index] d.
Proof.
  unfold get_iterative_indices. by destruct (iterate_indices _ _ _).
Qed.

Lemma get_iterative_indices_total rng indices index d :
  table_ok indices → (index < length indices)%nat →
  is_Some (get_iterative_indices rng indices index d None).
Proof.
  intros Hok Hix. rewrite get_iterative_indices_uncapped.
  destruct (iterate_indices_total indices [index] d) as (r & -> & _);
    [done | by repeat constructor | by eexists].
Qed.

Lemma triangle_ok : table_ok triangle.
Proof. repeat constructor. Qed.

Example closure_triangle_depth_2 rng :
  get_iterative_indices rng triangle 0 2 None = Some [0; 1; 2]%nat.
Proof. reflexivity. Qed.

(** C4. Without a cap, whenever the closure at depth [d > 1] is returned, so
    is the closure at depth [d - 1], and every index of the latter is in the
    former; on a table whose entries are row numbers, and for a seed that is
    one, the closure is returned at every depth. *)
Theorem closure_monotone rng (indices : table) (index : nat) (d : Z) :
  d > 1 →
  (∀ r, get_iterative_indices rng indices index d None = Some r →
        ∃ r', get_iterative_indices rng indices index (d - 1) None = Some r'
              ∧ r' ⊆ r)
  ∧ (table_ok indices → (index < length indices)%nat →
     is_Some (get_iterative_indices rng indices index d None)).
Proof.
  intros Hd. split; [|apply get_iterative_indices_total].
  intros r. rewrite !get_iterative_indices_uncapped. intros Hr.
  destruct (iterate_indices indices [index] d) as [ix|] eqn:Hix; simplify_eq/=.
  destruct (iterate_indices_prev _ _ _ _ Hd Hix) as (ix' & -> & Hpre).
  eexists. split; [done|]. intros x. rewrite !elem_of_unique.
  destruct Hpre as [k ->]. set_solver.
Qed.

Lemma chain_ok : table_ok chain.
Proof. repeat constructor. Qed.

Lemma closure_monotone_witness :
  2 > 1 ∧ table_ok chain ∧ (0 < length chain)%nat
  ∧ get_iterative_indices (seq 0) chain 0 (2 - 1) None = Some [0; 1]%nat
  ∧ get_iterative_indices (seq 0) chain 0 2 None = Some [0; 1; 2]%nat
  ∧ [0; 1]%nat ⊆ [0; 1; 2]%nat.
Proof.
  assert (Hd : 2 > 1) by lia.
  assert (Hlt : (0 < length chain)%nat) by (simpl; lia).
  destruct (closure_monotone (seq 0) chain 0 2 Hd) as [Hsub Htot].
  destruct (Hsub [0; 1; 2]%nat eq_refl) as (r' & Hr' & Hincl).
  assert (r' = [0; 1]%nat) as -> by (vm_compute in Hr'; congruence).
  split; [exact Hd|]. split; [exact chain_ok|]. split; [exact Hlt|].
  split; [exact Hr'|]. split; [reflexivity | exact Hincl].
Defined.

(** C5 as stated fails: at depth 1 the closure of seed [0] in the example
    table is [0, 1, 2], while the seed's row lists [1, 2] only. *)
Lemma closure_depth_1_not_only_neighbors :
  ∃ r row,
    get_iterative_indices (seq 0) triangle 0 1 None = Some r
    ∧ triangle !! 0%nat = Some row
    ∧ ¬ (∀ x, x ∈ r ↔ Some x ∈ row).
Proof.
  exists [0; 1; 2]%nat, [Some 1; Some 2]%nat.
  split; [reflexivity|]. split; [reflexivity|].
  intros H. assert (Some 0%nat ∈ [Some 1; Some 2]%nat) as Hin
    by (apply H; constructor).
  repeat (apply elem_of_cons in Hin as [Hin|Hin]; [discriminate|]).
  by apply elem_of_nil in Hin.
Qed.

(** C5, amended.  With [n_recurse_neighbors = 1] and no cap, the result is
    the sorted array of the distinct elements of the seed followed by the
    entries of the seed's row that are not the sentinel: the seed itself and
    its direct neighbours. *)
Theorem closure_depth_1 rng (indices : table) (index : nat)
    (row : list (option nat)) :
  indices !! index = Some row →
  get_iterative_indices rng indices index 1 None
  = Some (unique (index :: omap id row))
  ∧ ∀ x, x ∈ unique (index :: omap id row) ↔ x = index ∨ Some x ∈ row.
Proof.
  intros Hrow. split.
  - rewrite get_iterative_indices_uncapped, iterate_indices_eq.
    rewrite decide_False by lia. simpl. rewrite append_neighbors_eq.
    unfold take_rows. simpl. rewrite Hrow. simpl. by rewrite app_nil_r.
  - intros x. rewrite elem_of_unique, elem_of_cons, list_elem_of_omap.
    split; intros [->|H]; auto.
    + destruct H as ([y|] & Hy & Heq); simplify_eq/=. auto.
    + right. by exists (Some x).
Qed.

Lemma closure_depth_1_witness :
  triangle !! 0%nat = Some [Some 1; Some 2]%nat
  ∧ get_iterative_indices (seq 0) triangle 0 1 None = Some [0; 1; 2]%nat.
Proof.
  assert (Hrow : triangle !! 0%nat = Some [Some 1; Some 2]%nat) by reflexivity.
  split; [exact Hrow|].
  exact (proj1 (closure_depth_1 (seq 0) triangle 0 _ Hrow)).
Defined.

(** ** The cap *)

Lemma mapM_lookup_NoDup (a idx : list nat) :
  NoDup a → NoDup idx → Forall (λ i, i < length a)%nat idx →
  ∃ r, mapM (λ i, a !! i) idx = Some r
       ∧ length r = length idx ∧ NoDup r ∧ r ⊆ a.
Proof.
  intros Ha Hnd Hrange. induction Hrange as [|i idx Hi Hrange IH].
  - exists []. repeat split; [constructor | set_solver].
  - apply NoDup_cons in Hnd as [Hni Hnd].
    destruct (IH Hnd) as (r & Hr & Hlen & Hrnd & Hsub).
    destruct (lookup_lt_is_Some_2 a i Hi) as [x Hx].
    apply mapM_Some in Hr.
    exists (x :: r). split; [|split; [|split]].
    + apply mapM_Some. by constructor.
    + simpl. by rewrite Hlen.
    + constructor; [|done]. intros Hxr.
      apply list_elem_of_lookup in Hxr as [k Hk].
      destruct (Forall2_lookup_r _ _ _ _ _ Hr Hk) as (j & Hj & Haj).
      simpl in Haj. assert (i = j) as -> by exact (NoDup_lookup a i j x Ha Hx Haj).
      apply Hni. by eapply list_elem_of_lookup_2.
    + intros y Hy. apply elem_of_cons in Hy as [->|Hy]; [|by apply Hsub].
      by eapply list_elem_of_lookup_2.
Qed.

Lemma random_choice_spec rng (a : list nat) (m : Z) :
  rng_ok rng → NoDup a → 0 ≤ m < Z.of_nat (length a) →
  ∃ r, random_choice rng a m = Some r
       ∧ Z.of_nat (length r) = m ∧ NoDup r ∧ r ⊆ a.
Proof.
  intros Hrng Ha Hm. unfold random_choice. rewrite decide_False by lia.
  specialize (Hrng (length a)).
  destruct (mapM_lookup_NoDup a (take (Z.to_nat m) (rng (length a))))
    as (r & Hr & Hlen & Hnd & Hsub); [done | | |].
  - eapply sublist_NoDup; [|apply sublist_take].
    rewrite Hrng. apply NoDup_seq.
  - apply Forall_forall. intros i Hi.
    assert (i ∈ rng (length a)) as Hi'.
    { apply list_elem_of_lookup in Hi as [k Hk].
      apply lookup_take_Some in Hk as [Hk _].
      by eapply list_elem_of_lookup_2. }
    rewrite Hrng in Hi'. apply elem_of_seq in Hi'. lia.
  - exists r. split; [done|]. split; [|done].
    rewrite Hlen, length_take, Hrng, length_seq. lia.
Qed.

(** C6. For a random source of permutations, a non-negative cap below the
    size of the uncapped closure makes [get_iterative_indices] return an
    array of exactly [max_neighs] indices, without duplicates, all of them
    in the uncapped closure. *)
Theorem closure_cap rng (indices : table) (index : nat) (d : Z)
    (max_neighs : Z) (closure : list nat) :
  rng_ok rng →
  get_iterative_indices rng indices index d None = Some closure →
  0 ≤ max_neighs < Z.of_nat (length closure) →
  ∃ r, get_iterative_indices rng indices index d (Some max_neighs) = Some r
       ∧ Z.of_nat (length r) = max_neighs ∧ NoDup r ∧ r ⊆ closure.
Proof.
  intros Hrng Hcl Hm. rewrite get_iterative_indices_uncapped in Hcl.
  unfold get_iterative_indices.
  destruct (iterate_indices indices [index] d) as [ix|]; simplify_eq/=.
  rewrite decide_True by lia.
  apply random_choice_spec; [done | apply unique_NoDup | done].
Qed.

Lemma seq_rng_ok : rng_ok (λ n, reverse (seq 0 n)).
Proof. intros n. apply reverse_Permutation. Qed.

Lemma closure_cap_witness :
  ∃ r, get_iterative_indices (λ n, reverse (seq 0 n)) triangle 0 2 (Some 2)
       = Some r
       ∧ Z.of_nat (length r) = 2 ∧ NoDup r ∧ r ⊆ [0; 1; 2]%nat.
Proof.
  apply (closure_cap (λ n, reverse (seq 0 n)) triangle 0 2 2 [0; 1; 2]%nat).
  - exact seq_rng_ok.
  - reflexivity.
  - simpl. lia.
Defined.

Example closure_cap_example :
  get_iterative_indices (λ n, reverse (seq 0 n)) triangle 0 2 (Some 2)
  = Some [2; 1]%nat.
Proof. reflexivity. Qed.

(** C9. Without a cap, a returned closure is strictly increasing, has no
    duplicates and contains the seed; on a table whose entries are row
    numbers, and for a seed that is one, the closure is returned. *)
Theorem closure_sorted_with_seed rng (indices : table) (index : nat) (d : Z) :
  (∀ r, get_iterative_indices rng indices index d None = Some r →
        StronglySorted lt r ∧ NoDup r ∧ index ∈ r)
  ∧ (table_ok indices → (index < length indices)%nat →
     is_Some (get_iterative_indices rng indices index d None)).
Proof.
  split; [|apply get_iterative_indices_total].
  intros r. rewrite get_iterative_indices_uncapped. intros Hr.
  destruct (iterate_indices indices [index] d) as [ix|] eqn:Hix; simplify_eq/=.
  split; [apply unique_sorted|]. split; [apply unique_NoDup|].
  apply elem_of_unique. apply iterate_indices_prefix in Hix as [k ->].
  set_solver.
Qed.

Lemma closure_sorted_with_seed_witness :
  table_ok triangle ∧ (1 < length triangle)%nat
  ∧ StronglySorted lt [0; 1; 2]%nat ∧ NoDup [0; 1; 2]%nat
  ∧ 1%nat ∈ [0; 1; 2]%nat
  ∧ is_Some (get_iterative_indices (seq 0) triangle 1 3 None).
Proof.
  assert (Hlt : (1 < length triangle)%nat) by (simpl; lia).
  destruct (closure_sorted_with_seed (seq 0) triangle 1 3) as [Hres Htot].
  destruct (Hres [0; 1; 2]%nat eq_refl) as (Hs & Hnd & Hin).
  split; [exact triangle_ok|]. split; [exact Hlt|].
  split; [exact Hs|]. split; [exact Hnd|]. split; [exact Hin|].
  exact (Htot triangle_ok Hlt).
Defined.

(** ** [groups_to_bool] *)

Lemma in_keys_Some (obs : obs_table) g :
  in_keys obs (Some g) = true ↔ is_Some (obs !! g).
Proof. simpl. apply bool_decide_eq_true. Qed.

Lemma in_keys_present (obs : obs_table) g column :
  obs !! g = Some column → in_keys obs (Some g) = true.
Proof. intros H. apply in_keys_Some. by eexists. Qed.

Lemma in_keys_absent (obs : obs_table) g :
  obs !! g = None → in_keys obs (Some g) = false.
Proof.
  intros H. simpl. apply bool_decide_eq_false. rewrite H. by intros [? ?].
Qed.

Lemma in_keys_true (obs : obs_table) groupby :
  in_keys obs groupby = true → ∃ g, groupby = Some g ∧ is_Some (obs !! g).
Proof.
  destruct groupby as [g|]; [|done]. intros H%in_keys_Some. by exists g.
Qed.

Lemma mask_of_fmap names column :
  mask_of names column ((λ key, bool_decide (key ∈ names)) <$> column).
Proof.
  split; [by rewrite length_fmap|].
  intros i v Hv. rewrite list_lookup_fmap, Hv. simpl.
  split; [intros [= H%bool_decide_eq_true]; done|].
  intros H. f_equal. by apply bool_decide_eq_true.
Qed.

(** C8. For a list of group names, [groups_to_bool] raises exactly when the
    caller's [groupby] is no key of the per-cell table and neither
    ["clusters"] nor ["louvain"] is one; otherwise it returns the mask over
    the column of the caller's key if that is a key, else of ["clusters"] if
    present, else of ["louvain"]. *)
Theorem groups_to_bool_spec (obs : obs_table) (names : list string)
    (groupby : option string) :
  names ≠ [] →
  (raises (groups_to_bool obs (GroupList names) groupby)
   ↔ in_keys obs groupby = false
     ∧ obs !! "clusters" = None ∧ obs !! "louvain" = None)
  ∧ (∀ g column, groupby = Some g → obs !! g = Some column →
       ∃ m, groups_to_bool obs (GroupList names) groupby = Returns (Mask m)
            ∧ mask_of names column m)
  ∧ (∀ column, in_keys obs groupby = false →
       obs !! "clusters" = Some column →
       ∃ m, groups_to_bool obs (GroupList names) groupby = Returns (Mask m)
            ∧ mask_of names column m)
  ∧ (∀ column, in_keys obs groupby = false →
       obs !! "clusters" = None → obs !! "louvain" = Some column →
       ∃ m, groups_to_bool obs (GroupList names) groupby = Returns (Mask m)
            ∧ mask_of names column m).
Proof.
  intros _. unfold groups_to_bool. split; [|split; [|split]].
  - destruct (in_keys obs groupby) eqn:Hk.
    { apply in_keys_true in Hk as (g & -> & [column Hc]). rewrite Hc.
      split; [intros [] | intros [[=] _]]. }
    destruct (obs !! "clusters") as [c|] eqn:Hc.
    { rewrite (in_keys_present _ _ _ Hc), Hc.
      split; [intros [] | intros (_ & [=] & _)]. }
    rewrite (in_keys_absent _ _ Hc).
    destruct (obs !! "louvain") as [c|] eqn:Hl.
    { rewrite (in_keys_present _ _ _ Hl), Hl.
      split; [intros [] | intros (_ & _ & [=])]. }
    rewrite (in_keys_absent _ _ Hl).
    split; [done | by intros _].
  - intros g column -> Hc. rewrite (in_keys_present _ _ _ Hc), Hc.
    eexists. split; [done | apply mask_of_fmap].
  - intros column -> Hc. rewrite (in_keys_present _ _ _ Hc), Hc.
    eexists. split; [done | apply mask_of_fmap].
  - intros column -> Hc Hl.
    rewrite (in_keys_absent _ _ Hc), (in_keys_present _ _ _ Hl), Hl.
    eexists. split; [done | apply mask_of_fmap].
Qed.

Lemma groups_to_bool_spec_witness :
  let obs : obs_table :=
    {[ "louvain" := ["a"; "b"; "a"]; "batch" := ["x"; "y"; "z"] ]} in
  ["a"] ≠ []
  ∧ groups_to_bool obs (GroupList ["a"]) (Some "stage")
    = Returns (Mask [true; false; true])
  ∧ ∃ m, groups_to_bool obs (GroupList ["a"]) (Some "stage")
         = Returns (Mask m)
         ∧ mask_of ["a"] ["a"; "b"; "a"] m.
Proof.
  intros obs. assert (Hne : ["a"] ≠ []) by discriminate.
  split; [exact Hne|]. split; [vm_compute; reflexivity|].
  destruct (groups_to_bool_spec obs ["a"] (Some "stage") Hne)
    as (_ & _ & _ & Hlouvain).
  apply Hlouvain; vm_compute; reflexivity.
Defined.

Example groups_to_bool_raises :
  groups_to_bool {[ "batch" := ["x"; "y"] ]} (GroupList ["a"]) None
  = ValueError "groupby attribute not valid.".
Proof. vm_compute. reflexivity. Qed.

(** ** Implementations of [argsort] *)

Section argsort_by.
Context (R : relation entry) `{∀ x y, Decision (R x y)}.
Context `{!Total R} `{!Transitive R}.
Context (R_le : ∀ x y, R x y → x.2 ≤ y.2).

Lemma argsort_by_perm a : argsort_by R a ≡ₚ seq 0 (length a).
Proof.
  unfold argsort_by. rewrite merge_sort_Permutation.
  by rewrite fst_zip by (by rewrite length_seq).
Qed.

Lemma zip_seq_lookup (a : list Z) s :
  Forall (λ p : entry, a !! (p.1 - s)%nat = Some p.2 ∧ (s ≤ p.1)%nat)
         (zip (seq s (length a)) a).
Proof.
  revert s. induction a as [|x a IH]; intros s; simpl; constructor.
  - simpl. by rewrite Nat.sub_diag.
  - eapply Forall_impl; [apply (IH (S s))|]. intros [i v]. simpl.
    intros [Hl Hs]. split; [|lia].
    replace (i - s)%nat with (S (i - S s)) by lia. done.
Qed.

Lemma argsort_by_sorted_rel a :
  StronglySorted (λ i j, R (i, a !!! i) (j, a !!! j)) (argsort_by R a).
Proof.
  unfold argsort_by. set (s := merge_sort R _).
  assert (Hs : Forall (λ p : entry, a !! p.1 = Some p.2) s).
  { unfold s. rewrite merge_sort_Permutation.
    eapply Forall_impl; [apply (zip_seq_lookup a 0)|].
    intros [i v]. simpl. rewrite Nat.sub_0_r. tauto. }
  assert (Hsorted : StronglySorted R s).
  { apply StronglySorted_merge_sort; apply _. }
  clearbody s.
  induction Hsorted as [|[i v] s Hsorted IH Hp]; [constructor|].
  apply Forall_cons in Hs as [Hp1 Hs]. simpl in Hp1.
  rewrite fmap_cons. constructor; [by apply IH|].
  apply Forall_fmap, Forall_forall. intros [j w] Hq. simpl.
  eapply Forall_forall in Hp; [|exact Hq].
  eapply Forall_forall in Hs; [|exact Hq]. simpl in Hs.
  rewrite (list_lookup_total_correct _ _ _ Hp1).
  by rewrite (list_lookup_total_correct _ _ _ Hs).
Qed.

Lemma argsort_by_sorted a :
  StronglySorted Z.le ((λ i, a !!! i) <$> argsort_by R a).
Proof.
  eapply StronglySorted_fmap; [|apply argsort_by_sorted_rel].
  intros i j Hij. by apply R_le in Hij.
Qed.

End argsort_by.

Global Instance by_value_earlier_first_dec x y :
  Decision (by_value_earlier_first x y).
Proof. unfold by_value_earlier_first. apply _. Defined.

Global Instance by_value_earlier_first_total : Total by_value_earlier_first.
Proof. intros x y. unfold by_value_earlier_first. lia. Qed.

Global Instance by_value_earlier_first_trans :
  Transitive by_value_earlier_first.
Proof. intros x y z. unfold by_value_earlier_first. lia. Qed.


Lemma by_value_earlier_first_le x y : by_value_earlier_first x y → x.2 ≤ y.2.
Proof. unfold by_value_earlier_first. lia. Qed.


(** A sort that keeps equal values in the order of their positions, as
    numpy's [kind="stable"] does. *)
Definition stable_argsort : ArgSort :=
  {| argsort := argsort_by by_value_earlier_first;
     argsort_perm := argsort_by_perm by_value_earlier_first;
     argsort_sorted :=
       argsort_by_sorted by_value_earlier_first by_value_earlier_first_le |}.


Example get_indices_five_cells :
  @get_indices stable_argsort distance_kernel five_cells (Some 2) Distances
  = Some ([ [Some 1; Some 3]; [Some 0; Some 3]; [Some 0; Some 3];
            [Some 0; Some 2]; [Some 0; Some 2] ]%nat,
          [ [(1%nat, 100000); (3%nat, 200000)]; [(0%nat, 100000); (3%nat, 200000)];
            [(0%nat, 100000); (3%nat, 200000)]; [(0%nat, 100000); (2%nat, 200000)];
            [(0%nat, 100000); (2%nat, 200000)] ]).
Proof. vm_compute. reflexivity. Qed.

(** ** The pruning loop of [get_indices] *)

Lemma filter_Forall_id {A} (P : A → Prop) `{∀ x, Decision (P x)} (l : list A) :
  Forall P l → filter P l = l.
Proof.
  induction 1 as [|x l Hx _ IH]; [done|].
  by rewrite filter_cons_True, IH.
Qed.

Lemma csr_data_join (D : csr) :
  csr_data D = mjoin ((λ row : list entry, snd <$> row) <$> D).
Proof.
  unfold csr_data. induction D as [|row D IH]; simpl; [done|].
  by rewrite fmap_app, IH.
Qed.

Lemma csr_indices_join (D : csr) :
  csr_indices D = mjoin ((λ row : list entry, fst <$> row) <$> D).
Proof.
  unfold csr_indices. induction D as [|row D IH]; simpl; [done|].
  by rewrite fmap_app, IH.
Qed.

Lemma length_set_zero dat idxs : length (set_zero dat idxs) = length dat.
Proof.
  unfold set_zero. induction idxs as [|i idxs IH]; simpl; [done|].
  by rewrite length_insert.
Qed.

Lemma set_zero_middle (pre seg post : list Z) idxs :
  Forall (λ i, i < length seg)%nat idxs →
  set_zero (pre ++ seg ++ post) ((λ i, length pre + i)%nat <$> idxs)
  = pre ++ set_zero seg idxs ++ post.
Proof.
  unfold set_zero. induction 1 as [|i idxs Hi _ IH]; [done|].
  rewrite fmap_cons. cbn [foldr].
  rewrite IH, insert_app_r, insert_app_l; [done|].
  pose proof (length_set_zero seg idxs) as Hlen. unfold set_zero in Hlen.
  by rewrite Hlen.
Qed.

Lemma cumsum_lookup acc (a : list nat) r :
  (r ≤ length a)%nat →
  (acc :: cumsum acc a) !!! r = (acc + sum_list (take r a))%nat.
Proof.
  revert acc r. induction a as [|x a IH]; intros acc [|r] Hr; simpl in Hr;
    try lia.
  - change (acc = (acc + 0)%nat). lia.
  - change (acc = (acc + 0)%nat). lia.
  - change (((acc + x)%nat :: cumsum (acc + x) a) !!! r
            = (acc + (x + sum_list (take r a)))%nat).
    rewrite (IH (acc + x)%nat r) by lia. lia.
Qed.

Lemma cumsum_neighs_lookup (segs : list (list Z)) r :
  (r ≤ length segs)%nat →
  cumsum_neighs (length <$> segs) !!! r = length (mjoin (take r segs)).
Proof.
  intros Hr. unfold cumsum_neighs.
  rewrite cumsum_lookup by (by rewrite length_fmap).
  rewrite length_join, fmap_take. done.
Qed.

(** *** Canonical form *)

Lemma insert_entry_columns (e : entry) (row : list entry) c :
  c ∈ (insert_entry e row).*1 ↔ c = e.1 ∨ c ∈ row.*1.
Proof.
  induction row as [|e' row IH]; cbn [insert_entry].
  - rewrite fmap_cons, elem_of_cons. cbn. rewrite elem_of_nil. tauto.
  - repeat case_decide; rewrite !fmap_cons, !elem_of_cons; cbn [fst].
    + tauto.
    + split; [tauto|]. intros [->|[->|?]]; auto.
    + rewrite IH. tauto.
Qed.

Lemma insert_entry_sorted (e : entry) (row : list entry) :
  sorted_columns row → sorted_columns (insert_entry e row).
Proof.
  unfold sorted_columns. induction row as [|e' row IH]; cbn [insert_entry].
  - intros _. repeat constructor.
  - rewrite fmap_cons. intros [Hs Hall]%StronglySorted_inv.
    repeat case_decide.
    + rewrite !fmap_cons. constructor; [by constructor|].
      constructor; [done|]. eapply Forall_impl; [exact Hall|].
      intros c Hc. simpl in Hc. lia.
    + rewrite fmap_cons. by constructor.
    + rewrite fmap_cons. constructor; [by apply IH|].
      apply Forall_forall. intros c Hc.
      apply insert_entry_columns in Hc as [->|Hc]; [lia|].
      by eapply Forall_forall in Hall.
Qed.

Lemma insert_entry_below (e : entry) (row : list entry) :
  Forall (λ c, e.1 < c)%nat row.*1 → insert_entry e row = e :: row.
Proof.
  destruct row as [|e' row]; [done|]. rewrite fmap_cons.
  intros [He _]%Forall_cons. cbn [insert_entry]. by rewrite decide_True.
Qed.


Lemma insert_entry_bound (c : Z) (e : entry) (row : list entry) :
  0 ≤ c → c ≤ e.2 → Forall (λ e' : entry, c ≤ e'.2) row →
  Forall (λ e' : entry, c ≤ e'.2) (insert_entry e row).
Proof.
  intros Hc He. induction row as [|e' row IH]; cbn [insert_entry].
  - intros _. by repeat constructor.
  - intros [He' Hrow]%Forall_cons. repeat case_decide.
    + by repeat constructor.
    + constructor; [simpl; lia | done].
    + constructor; [done | by apply IH].
Qed.

Lemma sum_duplicates_row_sorted (row : list entry) :
  sorted_columns (sum_duplicates_row row).
Proof.
  induction row as [|e row IH]; [constructor|].
  by apply insert_entry_sorted.
Qed.

Lemma sum_duplicates_row_columns (row : list entry) c :
  c ∈ (sum_duplicates_row row).*1 ↔ c ∈ row.*1.
Proof.
  induction row as [|e row IH]; [done|].
  cbn [sum_duplicates_row foldr]. rewrite insert_entry_columns.
  fold (sum_duplicates_row row). rewrite IH, fmap_cons, elem_of_cons.
  done.
Qed.

Lemma sum_duplicates_row_id (row : list entry) :
  sorted_columns row → sum_duplicates_row row = row.
Proof.
  unfold sorted_columns. induction row as [|e row IH]; [done|].
  rewrite fmap_cons. intros [Hs Hall]%StronglySorted_inv.
  cbn [sum_duplicates_row foldr]. fold (sum_duplicates_row row).
  rewrite IH by done. by apply insert_entry_below.
Qed.


Lemma sum_duplicates_row_bound (c : Z) (row : list entry) :
  0 ≤ c → Forall (λ e : entry, c ≤ e.2) row →
  Forall (λ e : entry, c ≤ e.2) (sum_duplicates_row row).
Proof.
  intros Hc. induction row as [|e row IH]; [done|].
  intros [He Hrow]%Forall_cons. apply insert_entry_bound; auto.
Qed.

Lemma sum_duplicates_row_nil (row : list entry) :
  sum_duplicates_row row = [] ↔ row = [].
Proof.
  split; [|by intros ->]. destruct row as [|e row]; [done|].
  cbn [sum_duplicates_row foldr].
  destruct (foldr insert_entry [] row) as [|e' r]; cbn [insert_entry];
    [done|]. by repeat case_decide.
Qed.

Lemma shift_back (row : list entry) :
  (λ e : entry, (e.1, e.2 + eps))
    <$> ((λ e : entry, (e.1, e.2 + - eps)) <$> row) = row.
Proof.
  rewrite <-list_fmap_compose. rewrite <-(list_fmap_id row) at 2.
  apply list_fmap_ext. intros i [c v] _. simpl. f_equal. lia.
Qed.

Lemma shift_forth (row : list entry) :
  (λ e : entry, (e.1, e.2 + - eps))
    <$> ((λ e : entry, (e.1, e.2 + eps)) <$> row) = row.
Proof.
  rewrite <-list_fmap_compose. rewrite <-(list_fmap_id row) at 2.
  apply list_fmap_ext. intros i [c v] _. simpl. f_equal. lia.
Qed.

Lemma shift_columns (c : Z) (row : list entry) :
  ((λ e : entry, (e.1, e.2 + c)) <$> row).*1 = row.*1.
Proof. rewrite <-list_fmap_compose. by apply list_fmap_ext. Qed.

Lemma canonical_shift (D : csr) :
  sum_duplicates (data_add eps D) = data_add eps (canonical D).
Proof.
  unfold sum_duplicates, data_add, canonical.
  rewrite <-!list_fmap_compose. apply list_fmap_ext.
  intros i row _. simpl. unfold canonical_row. by rewrite shift_back.
Qed.

Lemma canonical_row_sorted (row : list entry) :
  sorted_columns (canonical_row row).
Proof.
  unfold sorted_columns, canonical_row. rewrite shift_columns.
  apply sum_duplicates_row_sorted.
Qed.

Lemma canonical_row_columns (row : list entry) c :
  c ∈ (canonical_row row).*1 ↔ c ∈ row.*1.
Proof.
  unfold canonical_row.
  by rewrite shift_columns, sum_duplicates_row_columns, shift_columns.
Qed.

Lemma canonical_row_id (row : list entry) :
  sorted_columns row → canonical_row row = row.
Proof.
  intros Hs. unfold canonical_row.
  rewrite sum_duplicates_row_id, shift_forth; [done|].
  unfold sorted_columns. by rewrite shift_columns.
Qed.


Lemma canonical_row_nonneg (row : list entry) :
  Forall (λ e : entry, 0 ≤ e.2) row →
  Forall (λ e : entry, 0 ≤ e.2) (canonical_row row).
Proof.
  intros Hrow. unfold canonical_row. apply Forall_fmap.
  eapply Forall_impl.
  - apply (sum_duplicates_row_bound eps); [done|].
    apply Forall_fmap. eapply Forall_impl; [exact Hrow|].
    intros e He. unfold compose, eps. simpl in *. lia.
  - intros e He. unfold compose, eps in *. simpl in *. lia.
Qed.

Lemma canonical_row_nil (row : list entry) :
  canonical_row row = [] ↔ row = [].
Proof.
  unfold canonical_row. split; [|by intros ->].
  intros Hnil%fmap_nil_inv. apply (proj1 (sum_duplicates_row_nil _)) in Hnil.
  by apply fmap_nil_inv in Hnil.
Qed.

Lemma canonical_nonneg (D : csr) : nonneg D → nonneg (canonical D).
Proof.
  intros HD. apply Forall_fmap. eapply Forall_impl; [exact HD|].
  intros row. apply canonical_row_nonneg.
Qed.

Lemma canonical_id (D : csr) :
  Forall sorted_columns D → canonical D = D.
Proof.
  intros HD. unfold canonical. rewrite <-(list_fmap_id D) at 2.
  apply list_fmap_ext. intros i row Hrow. simpl.
  apply canonical_row_id. by eapply Forall_lookup_1 in HD.
Qed.


Section pruning.
Context {AS : ArgSort} {CK : ConnectivityKernel}.

Lemma argsort_in_range (a : list Z) :
  Forall (λ i, i < length a)%nat (argsort a).
Proof.
  apply Forall_forall. intros i Hi. rewrite argsort_perm in Hi.
  apply elem_of_seq in Hi. lia.
Qed.

Lemma length_argsort (a : list Z) : length (argsort a) = length a.
Proof. by rewrite argsort_perm, length_seq. Qed.

Lemma slice_from_sublist {A} (a : list A) n : slice_from a n `sublist_of` a.
Proof. unfold slice_from. case_decide; apply sublist_drop. Qed.

Lemma length_zero_far n seg : length (zero_far n seg) = length seg.
Proof. apply length_set_zero. Qed.

Lemma zero_far_short n seg :
  Z.of_nat (length seg) ≤ n → zero_far n seg = seg.
Proof.
  intros Hn. unfold zero_far, slice_from. rewrite decide_False by lia.
  rewrite drop_ge by (rewrite length_argsort; lia). done.
Qed.

Lemma prune_row_middle n cs (pre seg post : list Z) row :
  cs !!! row = length pre →
  cs !!! (row + 1)%nat = (length pre + length seg)%nat →
  prune_row cs n (pre ++ seg ++ post) row = pre ++ zero_far n seg ++ post.
Proof.
  intros H0 H1. unfold prune_row, rm_idx. rewrite H0, H1.
  assert (slice (pre ++ seg ++ post) (length pre) (length pre + length seg)
          = seg) as ->.
  { unfold slice. rewrite drop_app_length.
    replace (length pre + length seg - length pre)%nat with (length seg)
      by lia.
    by rewrite take_app_length. }
  apply set_zero_middle.
  apply Forall_forall. intros i Hi.
  eapply elem_of_sublist in Hi; [|apply slice_from_sublist].
  by eapply Forall_forall in Hi; [|apply argsort_in_range].
Qed.

Lemma prune_loop n (all : list (list Z)) :
  ∀ segs prev pre,
    all = prev ++ segs → length pre = length (mjoin prev) →
    foldl (prune_row (cumsum_neighs (length <$> all)) n) (pre ++ mjoin segs)
          (filter (λ row, n < Z.of_nat ((length <$> all) !!! row))
                  (seq (length prev) (length segs)))
    = pre ++ mjoin (zero_far n <$> segs).
Proof.
  induction segs as [|seg segs IH]; intros prev pre Hall Hpre; [done|].
  assert ((length <$> all) !!! length prev = length seg) as Hlen.
  { rewrite Hall, fmap_app. simpl.
    rewrite <-(length_fmap length prev). apply list_lookup_total_middle.
    done. }
  assert (cumsum_neighs (length <$> all) !!! length prev = length pre) as H0.
  { rewrite cumsum_neighs_lookup by (rewrite Hall, length_app; lia).
    rewrite Hall, take_app_length. done. }
  assert (cumsum_neighs (length <$> all) !!! (length prev + 1)%nat
          = (length pre + length seg)%nat) as H1.
  { rewrite cumsum_neighs_lookup by (rewrite Hall, length_app; simpl; lia).
    rewrite Hall. rewrite (cons_middle seg prev segs), app_assoc.
    replace (length prev + 1)%nat with (length (prev ++ [seg]))
      by (rewrite length_app; simpl; lia).
    rewrite take_app_length, join_app, length_app. simpl.
    rewrite app_nil_r. lia. }
  assert (Hnext : ∀ seg',
    length seg' = length seg →
    foldl (prune_row (cumsum_neighs (length <$> all)) n)
          ((pre ++ seg') ++ mjoin segs)
          (filter (λ row, n < Z.of_nat ((length <$> all) !!! row))
                  (seq (S (length prev)) (length segs)))
    = (pre ++ seg') ++ mjoin (zero_far n <$> segs)).
  { intros seg' Hseg'.
    replace (S (length prev)) with (length (prev ++ [seg]))
      by (rewrite length_app; simpl; lia).
    apply IH.
    - by rewrite Hall, <-app_assoc.
    - rewrite join_app, !length_app. simpl. rewrite app_nil_r. lia. }
  cbn [length seq]. rewrite filter_cons. case_decide as Hgt.
  - cbn [foldl mjoin list_join fmap list_fmap].
    rewrite (prune_row_middle n _ pre seg (mjoin segs)) by done.
    rewrite !app_assoc. rewrite Hnext by apply length_zero_far. done.
  - cbn [mjoin list_join fmap list_fmap].
    rewrite zero_far_short by lia.
    rewrite !app_assoc. by rewrite Hnext.
Qed.

Lemma with_data_rows (D : csr) (f : list Z → list Z) :
  (∀ seg, length (f seg) = length seg) →
  with_data D (mjoin ((λ row : list entry, f (snd <$> row)) <$> D))
  = (λ row : list entry, zip (fst <$> row) (f (snd <$> row))) <$> D.
Proof.
  intros Hf. induction D as [|row D IH]; [done|].
  cbn [fmap list_fmap mjoin list_join with_data].
  assert (length row = length (f (snd <$> row))) as Hlen
    by (by rewrite Hf, length_fmap).
  rewrite Hlen at 1 2.
  rewrite take_app_length, drop_app_length. f_equal. exact IH.
Qed.

Lemma count_positive_nonneg (D : csr) :
  nonneg D → count_positive (data_add eps D) = length <$> D.
Proof.
  intros HD. unfold count_positive, data_add.
  rewrite <-list_fmap_compose. apply list_fmap_ext.
  intros i row Hrow. simpl.
  eapply Forall_lookup_1 in HD; [|exact Hrow].
  transitivity (length ((λ e : entry, (e.1, e.2 + eps)) <$> row));
    [|by rewrite length_fmap].
  f_equal. apply filter_Forall_id, Forall_fmap.
  eapply Forall_impl; [exact HD|]. intros e He. unfold compose, eps. simpl in *. lia.
Qed.

(** The function on a distance matrix: the rows of the canonical form of
    the matrix, each pruned by itself. *)
Lemma get_indices_rows (dist : csr) k mode_neighbors :
  nonneg dist →
  get_indices dist k mode_neighbors =
    n ← effective_neighbors (length <$> canonical dist) k;
    indices ← neighbor_indices mode_neighbors n (prune1 n <$> canonical dist);
    Some (indices, prune1 n <$> canonical dist).
Proof.
  intros HD%canonical_nonneg. unfold get_indices.
  rewrite canonical_shift. revert HD.
  generalize (canonical dist). clear dist. intros dist HD.
  rewrite count_positive_nonneg by done.
  destruct (effective_neighbors (length <$> dist) k) as [n|]; [|done].
  cbn [mbind option_bind].
  set (D1 := data_add eps dist).
  set (all := (λ row : list entry, snd <$> row) <$> D1).
  assert (length <$> all = length <$> dist) as Hall.
  { unfold all, D1, data_add. rewrite <-!list_fmap_compose.
    apply list_fmap_ext. intros i row _. simpl. by rewrite !length_fmap. }
  assert (foldl (prune_row (cumsum_neighs (length <$> dist)) n) (csr_data D1)
                (where_gt (length <$> dist) n)
          = mjoin (zero_far n <$> all)) as ->.
  { rewrite csr_data_join. fold all. unfold where_gt. rewrite <-Hall.
    rewrite length_fmap.
    exact (prune_loop n all all [] [] eq_refl eq_refl). }
  unfold all. rewrite <-list_fmap_compose.
  change (zero_far n ∘ (λ row : list entry, snd <$> row))
    with (λ row : list entry, zero_far n (snd <$> row)).
  rewrite (with_data_rows D1 (zero_far n)) by apply length_zero_far.
  assert (data_add (- eps)
            (eliminate_zeros
               ((λ row : list entry,
                   zip (fst <$> row) (zero_far n (snd <$> row))) <$> D1))
          = prune1 n <$> dist) as ->; [|done].
  unfold data_add, eliminate_zeros, D1, data_add.
  rewrite <-!list_fmap_compose. done.
Qed.

(** *** One row *)

Lemma set_zero_lookup dat idxs i :
  set_zero dat idxs !! i
  = if decide (i ∈ idxs) then (λ _, 0) <$> dat !! i else dat !! i.
Proof.
  unfold set_zero. induction idxs as [|j idxs IH]; cbn [foldr].
  - rewrite decide_False; [done | apply not_elem_of_nil].
  - rewrite list_lookup_insert. fold (set_zero dat idxs) in *.
    rewrite length_set_zero, IH.
    destruct (decide (j = i ∧ (j < length dat)%nat)) as [[-> Hlt]|Hne].
    + rewrite decide_True by apply list_elem_of_here.
      destruct (lookup_lt_is_Some_2 dat i Hlt) as [x ->]. done.
    + destruct (decide (i ∈ idxs)) as [Hin|Hin].
      * by rewrite decide_True by by apply list_elem_of_further.
      * destruct (decide (i = j)) as [->|Hij].
        -- rewrite decide_True by apply list_elem_of_here.
           rewrite lookup_ge_None_2 by lia. done.
        -- rewrite decide_False; [done|].
           intros [->|?]%elem_of_cons; done.
Qed.

Lemma set_zero_imap dat idxs :
  set_zero dat idxs = imap (λ i v, if decide (i ∈ idxs) then 0 else v) dat.
Proof.
  apply list_eq. intros i. rewrite set_zero_lookup, list_lookup_imap.
  destruct (dat !! i); simpl; by case_decide.
Qed.

Lemma prune_filter_positions (row : list entry) (P : nat → Prop)
    `{∀ i, Decision (P i)} s :
  Forall (λ e : entry, 0 ≤ e.2) row →
  Forall2 (λ i e, (s ≤ i)%nat ∧ row !! (i - s)%nat = Some e)
    (filter (λ i, ¬ P i) (seq s (length row)))
    ((λ e : entry, (e.1, e.2 + - eps))
       <$> filter (λ e : entry, e.2 ≠ 0)
             (zip (fst <$> ((λ e : entry, (e.1, e.2 + eps)) <$> row))
                  (imap (λ i v, if decide (P (s + i)%nat) then 0 else v)
                        (snd <$> ((λ e : entry, (e.1, e.2 + eps)) <$> row))))).
Proof.
  intros Hrow. revert s.
  induction Hrow as [|[c v] row Hv Hrow IH]; intros s; [constructor|].
  cbn [length seq]. rewrite !fmap_cons, imap_cons. cbn [zip zip_with fst snd].
  assert (Hrest :
    Forall2 (λ i e, (s ≤ i)%nat ∧ ((c, v) :: row) !! (i - s)%nat = Some e)
      (filter (λ i, ¬ P i) (seq (S s) (length row)))
      ((λ e : entry, (e.1, e.2 + - eps))
         <$> filter (λ e : entry, e.2 ≠ 0)
               (zip (fst <$> ((λ e : entry, (e.1, e.2 + eps)) <$> row))
                    (imap ((λ i v, if decide (P (s + i)%nat) then 0 else v)
                             ∘ S)
                          (snd <$> ((λ e : entry, (e.1, e.2 + eps))
                                      <$> row)))))).
  { rewrite (imap_ext _ (λ i v, if decide (P (S s + i)%nat) then 0 else v));
      [|by intros i x _; simpl; replace (s + S i)%nat with (S s + i)%nat by lia].
    eapply Forall2_impl; [apply (IH (S s))|].
    intros i e [Hi He]. split; [lia|].
    replace (i - s)%nat with (S (i - S s)) by lia. done. }
  rewrite (filter_cons (λ i, ¬ P i)).
  replace (s + 0)%nat with s by lia.
  destruct (decide (P s)) as [HP|HP].
  - rewrite decide_False by tauto.
    rewrite filter_cons_False by (simpl; tauto). exact Hrest.
  - rewrite decide_True by done.
    rewrite filter_cons_True by (simpl in *; unfold eps; lia).
    rewrite fmap_cons. constructor; [|exact Hrest].
    split; [lia|]. rewrite Nat.sub_diag. simpl. do 2 f_equal. lia.
Qed.

Lemma StronglySorted_lt_seq s n : StronglySorted lt (seq s n).
Proof.
  revert s. induction n as [|n IH]; intros s; simpl; constructor; [done|].
  apply Forall_forall. intros i Hi%elem_of_seq. lia.
Qed.

Lemma StronglySorted_filter {A} (R : relation A) (P : A → Prop)
    `{∀ x, Decision (P x)} l :
  StronglySorted R l → StronglySorted R (filter P l).
Proof.
  induction 1 as [|x l Hl IH Hx]; [constructor|].
  rewrite filter_cons. case_decide; [|done].
  constructor; [done|]. apply Forall_forall.
  intros y [_ Hy]%list_elem_of_filter. by eapply Forall_forall in Hx.
Qed.

Lemma filter_Forall_not {A} (P : A → Prop) `{∀ x, Decision (P x)}
    (l : list A) :
  Forall (λ x, ¬ P x) l → filter P l = [].
Proof.
  induction 1 as [|x l Hx _ IH]; [done|]. by rewrite filter_cons_False.
Qed.

(** The positions that stay are, up to order, the first [k] of the sort. *)
Lemma kept_positions (a : list Z) (k : nat) :
  filter (λ i, i ∉ drop k (argsort a)) (seq 0 (length a))
  ≡ₚ take k (argsort a).
Proof.
  pose proof (argsort_perm a) as Hperm.
  assert (NoDup (take k (argsort a) ++ drop k (argsort a))) as Hnd.
  { rewrite take_drop, Hperm. apply NoDup_seq. }
  apply NoDup_app in Hnd as (_ & Hdisj & _).
  rewrite <-Hperm.
  assert (filter (λ i, i ∉ drop k (argsort a))
                 (take k (argsort a) ++ drop k (argsort a))
          = take k (argsort a)) as Heq.
  { rewrite filter_app.
    rewrite (filter_Forall_id _ (take k (argsort a)))
      by (apply Forall_forall; intros i Hi; by apply Hdisj).
    rewrite (filter_Forall_not _ (drop k (argsort a)))
      by (apply Forall_forall; intros i Hi; tauto).
    by rewrite app_nil_r. }
  rewrite take_drop in Heq. by rewrite Heq.
Qed.

Lemma prune1_drop (n : Z) (row : list entry) :
  0 ≤ n → Forall (λ e : entry, 0 ≤ e.2) row →
  let vals1 := snd <$> ((λ e : entry, (e.1, e.2 + eps)) <$> row) in
  Forall2 (λ i e, row !! i = Some e)
    (filter (λ i, i ∉ drop (Z.to_nat n) (argsort vals1))
            (seq 0 (length row)))
    (prune1 n row).
Proof.
  intros Hn Hrow vals1. unfold prune1, zero_far, slice_from.
  rewrite decide_False by lia. rewrite set_zero_imap. fold vals1.
  pose proof (prune_filter_positions row
                (λ i, i ∈ drop (Z.to_nat n) (argsort vals1)) 0%nat Hrow)
    as Hpos.
  eapply Forall2_impl; [exact Hpos|].
  intros i e [_ He]. by rewrite Nat.sub_0_r in He.
Qed.

Lemma prune1_kept (n : Z) (row : list entry) :
  0 ≤ n ≤ Z.of_nat (length row) → Forall (λ e : entry, 0 ≤ e.2) row →
  let vals1 := snd <$> ((λ e : entry, (e.1, e.2 + eps)) <$> row) in
  ∃ kept : list nat,
    StronglySorted lt kept ∧ length kept = Z.to_nat n
    ∧ Forall2 (λ i e, row !! i = Some e) kept (prune1 n row)
    ∧ (∀ i e, row !! i = Some e → vals1 !!! i = e.2 + eps)
    ∧ ∀ i j, i ∈ kept → j ∉ kept → (j < length row)%nat →
        i ∈ take (Z.to_nat n) (argsort vals1)
        ∧ j ∈ drop (Z.to_nat n) (argsort vals1).
Proof.
  intros Hn Hrow vals1.
  assert (Hlen : length vals1 = length row)
    by (unfold vals1; by rewrite !length_fmap).
  pose proof (kept_positions vals1 (Z.to_nat n)) as Hkept.
  rewrite Hlen in Hkept.
  exists (filter (λ i, i ∉ drop (Z.to_nat n) (argsort vals1))
                 (seq 0 (length row))).
  split; [|split; [|split; [|split]]].
  - apply StronglySorted_filter, StronglySorted_lt_seq.
  - rewrite Hkept, length_take, length_argsort. lia.
  - apply prune1_drop; [lia | done].
  - intros i e He. apply list_lookup_total_correct. unfold vals1.
    by rewrite !list_lookup_fmap, He.
  - intros i j Hi Hj Hlt. rewrite Hkept in Hi. split; [done|].
    destruct (decide (j ∈ drop (Z.to_nat n) (argsort vals1))) as [|Hnin];
      [done|].
    exfalso. apply Hj. apply list_elem_of_filter. split; [done|].
    apply elem_of_seq. lia.
Qed.

Lemma prune1_pruned_row (n : Z) (row : list entry) :
  0 ≤ n ≤ Z.of_nat (length row) → Forall (λ e : entry, 0 ≤ e.2) row →
  pruned_row (Z.to_nat n) row (prune1 n row).
Proof.
  intros Hn Hrow.
  destruct (prune1_kept n row Hn Hrow)
    as (kept & Hsorted & Hlen & HF & Hval & Hsplit).
  exists kept. repeat split; try done.
  intros i j e e' Hi Hj He He'.
  destruct (Hsplit i j Hi Hj) as [Hi' Hj']; [by eapply lookup_lt_Some|].
  pose proof (argsort_sorted
                (snd <$> ((λ e : entry, (e.1, e.2 + eps)) <$> row))) as Hs.
  rewrite <-(take_drop (Z.to_nat n) (argsort _)), fmap_app in Hs.
  pose proof (StronglySorted_app_1_elem_of Z.le _ _ _ _ Hs
                (list_elem_of_fmap_2 _ _ _ Hi')
                (list_elem_of_fmap_2 _ _ _ Hj')) as Hle.
  simpl in Hle. rewrite (Hval i e He), (Hval j e' He') in Hle. lia.
Qed.


Lemma prune1_full (n : Z) (row : list entry) :
  Z.of_nat (length row) ≤ n → Forall (λ e : entry, 0 ≤ e.2) row →
  prune1 n row = row.
Proof.
  intros Hn Hrow. unfold prune1.
  rewrite zero_far_short by (by rewrite !length_fmap).
  rewrite zip_fst_snd, filter_Forall_id.
  - rewrite <-list_fmap_compose. rewrite <-(list_fmap_id row) at 2.
    apply list_fmap_ext. intros i [c v] _. simpl. f_equal. lia.
  - apply Forall_fmap. eapply Forall_impl; [exact Hrow|].
    intros e He. unfold compose, eps. simpl in *. lia.
Qed.

(** *** The whole matrix *)

Lemma min_list_spec (a : list nat) m :
  min_list a = Some m → Forall (λ x, m ≤ x)%nat a ∧ m ∈ a.
Proof.
  destruct a as [|x a]; [done|]. simpl. intros [= <-].
  induction a as [|y a [IH1 IH2]]; simpl.
  - split; [by repeat constructor | apply list_elem_of_here].
  - apply Forall_cons in IH1 as [Hx Ha]. split.
    + constructor; [lia|]. constructor; [lia|].
      eapply Forall_impl; [exact Ha|]. simpl. lia.
    + destruct (Nat.min_spec y (foldr Nat.min x a)) as [[_ ->]|[_ ->]].
      * apply list_elem_of_further, list_elem_of_here.
      * apply elem_of_cons in IH2 as [->|IH2];
          [apply list_elem_of_here|].
        by apply list_elem_of_further, list_elem_of_further.
Qed.

Lemma min_list_uniform (a : list nat) d :
  a ≠ [] → Forall (λ x, x = d) a → min_list a = Some d.
Proof.
  intros Hne Ha. destruct (min_list a) as [m|] eqn:Hm.
  - apply min_list_spec in Hm as [_ Hin].
    eapply Forall_forall in Ha; [|exact Hin]. by subst.
  - by destruct a.
Qed.

Lemma effective_neighbors_le (D : csr) k n :
  effective_neighbors (length <$> D) k = Some n →
  D ≠ [] ∧ Forall (λ row : list entry, n ≤ Z.of_nat (length row)) D
  ∧ (∀ k', k = Some k' → n ≤ k').
Proof.
  unfold effective_neighbors.
  destruct (min_list (length <$> D)) as [m|] eqn:Hm; [|done].
  simpl. intros [= <-]. split; [by destruct D|].
  apply min_list_spec in Hm as [Hm _]. rewrite Forall_fmap in Hm. split.
  - eapply Forall_impl; [exact Hm|]. intros row. unfold compose.
    destruct k; lia.
  - intros k' ->. lia.
Qed.

Lemma slice_join_0 {A} (r : list A) (rest : list A) :
  slice (r ++ rest) 0 (length r) = r.
Proof. unfold slice. rewrite Nat.sub_0_r, drop_0. apply take_app_length. Qed.

Lemma reshape_join {A} (rows : list (list A)) (n : Z) :
  0 < n → Forall (λ r, length r = Z.to_nat n) rows →
  reshape (mjoin rows) n = Some rows.
Proof.
  intros Hn Hrows. unfold reshape.
  assert (length (mjoin rows) = (length rows * Z.to_nat n)%nat) as Hlen.
  { induction Hrows as [|r rows Hr _ IH]; [done|].
    simpl. rewrite length_app, IH, Hr. lia. }
  rewrite decide_True.
  2:{ split; [done|]. rewrite Hlen, Nat2Z.inj_mul, Z2Nat.id by lia.
      apply Z_mod_mult. }
  f_equal. rewrite Hlen, Nat.div_mul by lia.
  clear Hlen. induction Hrows as [|r rows Hr Hrows IH]; [done|].
  cbn [length seq]. rewrite <-fmap_S_seq, fmap_cons, <-list_fmap_compose.
  f_equal.
  - change (mjoin (r :: rows)) with (r ++ mjoin rows).
    rewrite Nat.mul_0_l, Nat.add_0_l, <-Hr. apply slice_join_0.
  - rewrite <-IH at 2. apply list_fmap_ext. intros _ i _. unfold compose.
    change (mjoin (r :: rows)) with (r ++ mjoin rows).
    unfold slice.
    replace (S i * Z.to_nat n)%nat with (length r + i * Z.to_nat n)%nat
      by lia.
    rewrite <-drop_drop, drop_app_length. f_equal. lia.
Qed.

Lemma neighbor_indices_pos mode_neighbors n (D : csr) indices :
  neighbor_indices mode_neighbors n D = Some indices → 0 < n.
Proof.
  assert (∀ a : list nat, is_Some (reshape a n) → 0 < n) as Hpos.
  { intros a. unfold reshape. case_decide as Hn; [tauto|]. by intros [? ?]. }
  unfold neighbor_indices. destruct mode_neighbors; [| |done].
  - destruct (reshape (csr_indices D) n) eqn:Hr; [|done].
    intros _. apply (Hpos (csr_indices D)). by rewrite Hr.
  - destruct (reshape (csr_indices D) n) eqn:Hr; [|done].
    intros _. apply (Hpos (csr_indices D)). by rewrite Hr.
Qed.

Lemma prune1_length (n : Z) (row : list entry) :
  0 ≤ n ≤ Z.of_nat (length row) → Forall (λ e : entry, 0 ≤ e.2) row →
  length (prune1 n row) = Z.to_nat n.
Proof.
  intros Hn Hrow.
  destruct (prune1_pruned_row n row Hn Hrow) as (kept & _ & Hk & HF & _).
  apply Forall2_length in HF. lia.
Qed.

Lemma prune1_nonneg (n : Z) (row : list entry) :
  0 ≤ n → Forall (λ e : entry, 0 ≤ e.2) row →
  Forall (λ e : entry, 0 ≤ e.2) (prune1 n row).
Proof.
  intros Hn Hrow. pose proof (prune1_drop n row Hn Hrow) as HF.
  simpl in HF. apply Forall_forall. intros e He.
  apply list_elem_of_lookup in He as [p Hp].
  destruct (Forall2_lookup_r _ _ _ _ _ HF Hp) as (i & _ & Hi).
  eapply Forall_lookup_1 in Hrow; [|exact Hi]. done.
Qed.

Lemma StronglySorted_sublist {A} (R : relation A) (l1 l2 : list A) :
  l1 `sublist_of` l2 → StronglySorted R l2 → StronglySorted R l1.
Proof.
  induction 1 as [|x l1 l2 Hsub IH|x l1 l2 Hsub IH]; intros Hs; [done| |].
  - apply StronglySorted_inv in Hs as [Hs Hall]. constructor; [auto|].
    apply Forall_forall. intros y Hy.
    eapply Forall_forall in Hall; [exact Hall|].
    by eapply elem_of_sublist.
  - apply StronglySorted_inv in Hs as [Hs _]. auto.
Qed.

Lemma prune1_columns (n : Z) (row : list entry) :
  (prune1 n row).*1 `sublist_of` row.*1.
Proof.
  unfold prune1. rewrite shift_columns.
  etrans; [apply fmap_sublist, sublist_filter|].
  rewrite fst_zip, shift_columns; [done|].
  by rewrite length_zero_far, !length_fmap.
Qed.

Lemma prune1_sorted (n : Z) (row : list entry) :
  sorted_columns row → sorted_columns (prune1 n row).
Proof. apply StronglySorted_sublist, prune1_columns. Qed.

End pruning.

(** ** [get_indices] on distance matrices *)

Lemma nonneg_row (D : csr) i row :
  nonneg D → D !! i = Some row → Forall (λ e : entry, 0 ≤ e.2) row.
Proof. intros HD Hrow. by eapply Forall_lookup_1 in HD. Qed.

(** The rows of a distance matrix once canonical, each with what the
    function keeps of it. *)
Lemma get_indices_canonical {AS : ArgSort} {CK : ConnectivityKernel}
    (dist : csr) k mode_neighbors indices D :
  nonneg dist →
  get_indices dist k mode_neighbors = Some (indices, D) →
  ∃ n, effective_neighbors (length <$> canonical dist) k = Some n
       ∧ 1 ≤ n
       ∧ Forall (λ row : list entry, n ≤ Z.of_nat (length row))
                (canonical dist)
       ∧ D = prune1 n <$> canonical dist
       ∧ neighbor_indices mode_neighbors n D = Some indices.
Proof.
  intros HD. rewrite get_indices_rows by done.
  destruct (effective_neighbors (length <$> canonical dist) k) as [n|]
    eqn:Hn; [|done].
  cbn [mbind option_bind].
  destruct (neighbor_indices mode_neighbors n (prune1 n <$> canonical dist))
    as [ix|] eqn:Hix; [|done].
  cbn [mbind option_bind]. intros [= <- <-].
  pose proof (neighbor_indices_pos _ _ _ _ Hix) as Hpos.
  exists n. split; [done|]. split; [lia|].
  apply effective_neighbors_le in Hn as (_ & Hle & _). done.
Qed.

Lemma prune1_rows_pruned {AS : ArgSort} (dist : csr) (n : Z) :
  nonneg dist → 1 ≤ n →
  Forall (λ row : list entry, n ≤ Z.of_nat (length row)) dist →
  Forall2 (pruned_row (Z.to_nat n)) dist (prune1 n <$> dist).
Proof.
  intros HD Hpos Hle.
  apply Forall2_fmap_r, Forall_Forall2_diag, Forall_forall.
  intros row Hrow. apply list_elem_of_lookup in Hrow as [i Hi].
  apply prune1_pruned_row; [|by eapply nonneg_row].
  eapply Forall_lookup_1 in Hle; [|exact Hi]. simpl in Hle. lia.
Qed.




(** On a distance matrix with at least one row and no empty row, and for a
    positive count (or none), the default mode returns. *)
Lemma get_indices_returns {AS : ArgSort} {CK : ConnectivityKernel}
    (dist : csr) (k : option Z) :
  dist ≠ [] → nonneg dist →
  Forall (λ row : list entry, row ≠ []) dist →
  (∀ k', k = Some k' → 1 ≤ k') →
  is_Some (get_indices dist k Distances).
Proof.
  intros Hne HD Hrows Hk. rewrite get_indices_rows by done.
  pose proof (canonical_nonneg dist HD) as HD1.
  destruct (effective_neighbors (length <$> canonical dist) k) as [n|] eqn:Hn.
  2:{ unfold effective_neighbors in Hn. by destruct dist. }
  assert (1 ≤ n) as Hpos.
  { unfold effective_neighbors in Hn.
    destruct (min_list (length <$> canonical dist)) as [m|] eqn:Hm; [|done].
    apply min_list_spec in Hm as [_ Hm].
    apply list_elem_of_fmap in Hm as (row1 & -> & Hrow1).
    apply list_elem_of_fmap in Hrow1 as (row & -> & Hrow).
    eapply Forall_forall in Hrows; [|exact Hrow].
    assert (1 ≤ Z.of_nat (length (canonical_row row))).
    { destruct (canonical_row row) eqn:Hc; simpl; [|lia].
      apply (proj1 (canonical_row_nil row)) in Hc. done. }
    simpl in Hn. injection Hn as <-. destruct k as [k'|]; [|done].
    specialize (Hk k' eq_refl). lia. }
  apply effective_neighbors_le in Hn as (_ & Hle & _).
  cbn [mbind option_bind]. unfold neighbor_indices.
  rewrite csr_indices_join, reshape_join; [by eexists|lia|].
  apply Forall_fmap, Forall_fmap, Forall_forall. intros row Hrow.
  unfold compose. rewrite length_fmap.
  apply list_elem_of_lookup in Hrow as [i Hi].
  apply prune1_length; [|by eapply nonneg_row].
  eapply Forall_lookup_1 in Hle; [|exact Hi]. simpl in Hle. lia.
Qed.

Lemma five_cells_nonneg : nonneg five_cells.
Proof. repeat constructor; simpl; lia. Qed.




Example get_indices_equidistant_stable :
  @get_indices stable_argsort distance_kernel equidistant (Some 1) Distances
  = Some ([[Some 1]; [Some 0]; [Some 0]]%nat,
          [[(1%nat, 5)]; [(0%nat, 5)]; [(0%nat, 5)]]).
Proof. vm_compute. reflexivity. Qed.


(** C7. On a distance matrix, a second call of [get_indices] with the same
    arguments on the matrix that a first call returned gives back that
    matrix, and the same indices. *)
Theorem get_indices_idempotent {AS : ArgSort} {CK : ConnectivityKernel}
    (dist : csr) (k : option Z) (mode_neighbors : mode)
    (indices : table) (D : csr) :
  nonneg dist →
  get_indices dist k mode_neighbors = Some (indices, D) →
  get_indices D k mode_neighbors = Some (indices, D).
Proof.
  intros HD Hget.
  destruct (get_indices_canonical dist k mode_neighbors indices D HD Hget)
    as (n & Hn & Hpos & Hle & -> & Hix).
  pose proof (canonical_nonneg dist HD) as HD1.
  apply effective_neighbors_le in Hn as (Hne & _ & Hk).
  set (dist1 := canonical dist) in *.
  assert (nonneg (prune1 n <$> dist1)) as HD'.
  { apply Forall_fmap, Forall_forall. intros row Hrow. unfold compose.
    apply list_elem_of_lookup in Hrow as [i Hi].
    apply prune1_nonneg; [lia | by eapply nonneg_row]. }
  assert (Forall (λ row : list entry, length row = Z.to_nat n)
                 (prune1 n <$> dist1)) as Hlen.
  { apply Forall_fmap, Forall_forall. intros row Hrow. unfold compose.
    apply list_elem_of_lookup in Hrow as [i Hi].
    apply prune1_length; [|exact (nonneg_row dist1 i row HD1 Hi)].
    eapply Forall_lookup_1 in Hle; [|exact Hi]. simpl in Hle. lia. }
  assert (canonical (prune1 n <$> dist1) = prune1 n <$> dist1) as Hcanon.
  { apply canonical_id, Forall_fmap, Forall_forall. intros row Hrow.
    unfold compose. apply prune1_sorted.
    apply list_elem_of_fmap in Hrow as (row0 & -> & _).
    apply canonical_row_sorted. }
  rewrite get_indices_rows, Hcanon by done.
  assert (effective_neighbors (length <$> (prune1 n <$> dist1)) k = Some n)
    as ->.
  { unfold effective_neighbors.
    rewrite (min_list_uniform _ (Z.to_nat n));
      [|by destruct dist1|by apply Forall_fmap].
    cbn [mbind option_bind]. f_equal. destruct k as [k'|]; [|lia].
    specialize (Hk k' eq_refl). lia. }
  cbn [mbind option_bind].
  assert (prune1 n <$> (prune1 n <$> dist1) = prune1 n <$> dist1) as ->.
  { rewrite <-(list_fmap_id (prune1 n <$> dist1)) at 2.
    apply list_fmap_ext. intros i row Hrow. simpl.
    apply prune1_full; [|exact (nonneg_row _ i row HD' Hrow)].
    eapply Forall_lookup_1 in Hlen; [|exact Hrow]. simpl in Hlen. lia. }
  by rewrite Hix.
Qed.

Lemma get_indices_idempotent_witness :
  let D := [ [(1%nat, 100000); (3%nat, 200000)];
             [(0%nat, 100000); (3%nat, 200000)];
             [(0%nat, 100000); (3%nat, 200000)];
             [(0%nat, 100000); (2%nat, 200000)];
             [(0%nat, 100000); (2%nat, 200000)] ] in
  let indices := [ [Some 1; Some 3]; [Some 0; Some 3]; [Some 0; Some 3];
                   [Some 0; Some 2]; [Some 0; Some 2] ]%nat in
  @get_indices stable_argsort distance_kernel D (Some 2) Distances
  = Some (indices, D).
Proof.
  intros D indices.
  apply (@get_indices_idempotent stable_argsort distance_kernel five_cells).
  - exact five_cells_nonneg.
  - vm_compute. reflexivity.
Defined.

(** ** The program on the store *)

Lemma with_data_id (D : csr) : with_data D (csr_data D) = D.
Proof.
  rewrite csr_data_join.
  rewrite (with_data_rows D (λ seg, seg)) by done.
  rewrite <-(list_fmap_id D) at 2. apply list_fmap_ext.
  intros i row _. apply zip_fst_snd.
Qed.

Lemma length_csr_data_cons (row : list entry) (D : csr) :
  length (csr_data (row :: D)) = (length row + length (csr_data D))%nat.
Proof. unfold csr_data. simpl. by rewrite fmap_app, length_app, !length_fmap. Qed.

Lemma csr_data_with_data (D : csr) (dat : list Z) :
  length dat = length (csr_data D) → csr_data (with_data D dat) = dat.
Proof.
  revert dat. induction D as [|row D IH]; intros dat Hlen.
  - by destruct dat.
  - rewrite length_csr_data_cons in Hlen. cbn [with_data].
    unfold csr_data in *. simpl. rewrite fmap_app.
    rewrite snd_zip by (rewrite length_fmap, length_take; lia).
    rewrite IH by (rewrite length_drop; lia). apply take_drop.
Qed.

Lemma with_data_with_data (D : csr) (d1 d2 : list Z) :
  length d1 = length (csr_data D) →
  with_data (with_data D d1) d2 = with_data D d2.
Proof.
  revert d1 d2. induction D as [|row D IH]; intros d1 d2 Hlen; [done|].
  rewrite length_csr_data_cons in Hlen. cbn [with_data].
  rewrite length_zip_with, length_fmap, length_take.
  replace (length row `min` (length row `min` length d1))%nat
    with (length row) by lia.
  rewrite fst_zip by (rewrite length_fmap, length_take; lia).
  f_equal. apply IH. rewrite length_drop. lia.
Qed.

Lemma length_prune_row {AS : ArgSort} cs n dat row :
  length (prune_row cs n dat row) = length dat.
Proof. apply length_set_zero. Qed.

Section store.
Context {AS : ArgSort} {CK : ConnectivityKernel}.
Implicit Types (h : store) (D : loc) (m : csr).

Lemma bind_run {A B} (c : St A) (f : A → St B) h :
  (c ≫= f) h = match c h with
               | (Some a, h') => f a h'
               | (None, h') => (None, h')
               end.
Proof. done. Qed.

Lemma update_run D f h m :
  (<[D := m]> h : store) !! D = Some m →
  update D f (<[D := m]> h) = (Some (), <[D := f m]> h).
Proof. intros Hm. unfold update. by rewrite Hm, insert_insert_eq. Qed.

Lemma prune_loop_run D h (D1 : csr) cs n rows :
  ∀ dat, length dat = length (csr_data D1) →
    for_each rows
      (λ row, m ← read D;
              data_set_zero D (rm_idx cs n (csr_data m) row))
      (<[D := with_data D1 dat]> h)
    = (Some (), <[D := with_data D1 (foldl (prune_row cs n) dat rows)]> h).
Proof.
  induction rows as [|row rows IH]; intros dat Hlen; [done|].
  cbn [for_each foldl]. rewrite bind_run, bind_run.
  unfold read at 1. rewrite lookup_insert_eq.
  unfold data_set_zero. rewrite update_run by apply lookup_insert_eq.
  rewrite csr_data_with_data, with_data_with_data by done.
  apply IH. by rewrite length_prune_row.
Qed.

(** The program computes what the function [get_indices] describes: it
    allocates one object, the copy, and leaves there the pruned matrix. *)
Lemma get_indices_st_run dist k mode_neighbors h m :
  h !! dist = Some m →
  ∃ m',
    get_indices_st dist k mode_neighbors h
    = ((λ r : table * csr, (r.1, fresh (dom h)))
         <$> get_indices m k mode_neighbors,
       <[fresh (dom h) := m']> h)
    ∧ ∀ r, get_indices m k mode_neighbors = Some r → m' = r.2.
Proof.
  intros Hm. unfold get_indices_st, get_indices.
  set (D := fresh (dom h)).
  rewrite bind_run. unfold copy at 1. rewrite Hm. fold D.
  rewrite bind_run. unfold data_iadd at 1.
  rewrite update_run by apply lookup_insert_eq.
  rewrite bind_run. unfold sum_duplicates_inplace at 1.
  rewrite update_run by apply lookup_insert_eq.
  rewrite bind_run. unfold read at 1. rewrite lookup_insert_eq.
  set (D1 := sum_duplicates (data_add eps m)).
  rewrite bind_run. unfold lift at 1.
  destruct (effective_neighbors (count_positive D1) k) as [n|];
    [|exists D1; split; [done | intros r [=]]].
  cbn [mbind option_bind].
  pose proof (prune_loop_run D h D1 (cumsum_neighs (count_positive D1)) n
                (where_gt (count_positive D1) n) (csr_data D1) eq_refl)
    as Hloop.
  rewrite with_data_id in Hloop. rewrite bind_run, Hloop.
  rewrite bind_run. unfold eliminate_zeros_inplace at 1.
  rewrite update_run by apply lookup_insert_eq.
  rewrite bind_run. unfold data_iadd at 1.
  rewrite update_run by apply lookup_insert_eq.
  rewrite bind_run. unfold read at 1. rewrite lookup_insert_eq.
  rewrite bind_run. unfold lift at 1.
  eexists. split.
  - destruct (neighbor_indices mode_neighbors n _); done.
  - intros r Hr.
    destruct (neighbor_indices mode_neighbors n _); by simplify_eq/=.
Qed.

End store.

(** C10. Whatever the store and the arguments, after [get_indices] every
    object that was in the store, the argument [dist] among them, is what it
    was before; and when the call returns, the matrix returned is a new
    object, which holds the pruning of the value of [dist]. *)
Theorem get_indices_preserves_input {AS : ArgSort} {CK : ConnectivityKernel}
    (h : store) (dist : loc) (n_neighbors : option Z) (mode_neighbors : mode) :
  let (result, h') := get_indices_st dist n_neighbors mode_neighbors h in
  (∀ x, x ∈ dom h → h' !! x = h !! x)
  ∧ (∀ indices D, result = Some (indices, D) →
       (D ∉ dom h)
       ∧ ∃ m m', h !! dist = Some m ∧ h' !! D = Some m'
                 ∧ get_indices m n_neighbors mode_neighbors
                   = Some (indices, m')).
Proof.
  destruct (h !! dist) as [m|] eqn:Hm.
  - destruct (get_indices_st_run dist n_neighbors mode_neighbors h m Hm)
      as (m' & -> & Hm').
    assert (fresh (dom h) ∉ dom h) as Hfresh by apply is_fresh.
    split.
    + intros x Hx. apply lookup_insert_ne. by intros <-.
    + intros indices D Hres.
      destruct (get_indices m n_neighbors mode_neighbors) as [[ix D']|] eqn:Hg;
        simplify_eq/=.
      split; [done|]. exists m, D'. split; [done|]. split; [|done].
      rewrite lookup_insert_eq. f_equal. exact (Hm' _ eq_refl).
  - unfold get_indices_st. rewrite bind_run. unfold copy at 1. rewrite Hm.
    split; [done | intros ? ? [=]].
Qed.

Lemma get_indices_preserves_input_witness :
  let h : store := {[ 7%nat := five_cells ]} in
  let h' := (@get_indices_st stable_argsort distance_kernel 7 (Some 2)
                             Distances h).2 in
  7%nat ∈ dom h ∧ h' !! 7%nat = Some five_cells.
Proof.
  intros h h'.
  assert (Hdom : 7%nat ∈ dom h) by (apply elem_of_dom; by eexists).
  split; [exact Hdom|].
  pose proof (@get_indices_preserves_input stable_argsort distance_kernel
                h 7%nat (Some 2) Distances) as Hframe.
  fold h' in Hframe.
  destruct (@get_indices_st stable_argsort distance_kernel 7 (Some 2)
                            Distances h) as [result h''] eqn:Hrun.
  destruct Hframe as [Hframe _].
  exact (Hframe 7%nat Hdom).
Defined.

(** Without the copy the argument would change: the first statement after
    it already moves every stored value of the object it is applied to. *)
Example data_iadd_changes_its_object :
  (data_iadd 7 eps ({[ 7%nat := equidistant ]} : store)).2 !! 7%nat
  = Some [ [(1%nat, 6); (2%nat, 6)]; [(0%nat, 6); (2%nat, 6)];
           [(0%nat, 6); (1%nat, 6)] ].
Proof. vm_compute. reflexivity. Qed.

(** Values below zero are outside the contract: the offsets of the loop
    count only the positive entries, and a second call can fail. *)
Example get_indices_negative_entry :
  let D := [ [(1%nat, -5); (2%nat, 3)]; [(0%nat, 2); (1%nat, 1); (2%nat, 7)] ] in
  let D' := [ [(1%nat, -5)]; [(1%nat, 1); (2%nat, 7)] ] in
  @get_indices stable_argsort distance_kernel D (Some 1) Distances
  = Some ([[Some 1]; [Some 1]; [Some 2]]%nat, D')
  ∧ @get_indices stable_argsort distance_kernel D' (Some 1) Distances = None.
Proof. split; vm_compute; reflexivity. Qed.

(** * Part III: further properties of the code *)

(** ** More on the neighbour closure *)

Lemma elem_of_append_neighbors (indices : table) index r x :
  append_neighbors indices index = Some r →
  x ∈ r ↔ x ∈ index
          ∨ ∃ y row, y ∈ index ∧ indices !! y = Some row ∧ Some x ∈ row.
Proof.
  rewrite append_neighbors_eq. unfold take_rows.
  destruct (mapM (λ i, indices !! i) index) as [rows|] eqn:Hrows;
    [|done].
  simpl. intros [= <-]. apply mapM_Some in Hrows.
  rewrite elem_of_app, list_elem_of_omap.
  split; (intros [Hx|Hx]; [by left|right]).
  - destruct Hx as (e & He & Hex). simpl in Hex. subst e.
    apply list_elem_of_join in He as (row & Hxrow & Hrow).
    apply list_elem_of_lookup in Hrow as [i Hi].
    destruct (Forall2_lookup_r _ _ _ _ _ Hrows Hi) as (y & Hy & Hyrow).
    exists y, row. split; [by eapply list_elem_of_lookup_2 | done].
  - destruct Hx as (y & row & Hy & Hrow & Hxrow).
    exists (Some x). split; [|done].
    apply list_elem_of_join. exists row. split; [done|].
    apply list_elem_of_lookup in Hy as [i Hi].
    destruct (Forall2_lookup_l _ _ _ _ _ Hrows Hi) as (row' & Hrow' & Heq).
    simpl in Heq. rewrite Hrow in Heq. injection Heq as <-.
    by eapply list_elem_of_lookup_2.
Qed.

Lemma iterate_indices_low indices index n :
  n ≤ 1 → iterate_indices indices index n = append_neighbors indices index.
Proof. intros Hn. rewrite iterate_indices_eq. by rewrite decide_False by lia. Qed.

Lemma iterate_indices_succ indices index (k : nat) :
  iterate_indices indices index (Z.of_nat (S (S k)))
  = iterate_indices indices index (Z.of_nat (S k))
      ≫= append_neighbors indices.
Proof.
  rewrite iterate_indices_eq, decide_True by lia.
  by replace (Z.of_nat (S (S k)) - 1) with (Z.of_nat (S k)) by lia.
Qed.

Lemma reachable_0 indices seed x : reachable indices seed 0 x ↔ x = seed.
Proof. split; [by inversion 1 | intros ->; constructor]. Qed.

Lemma reachable_S indices seed d x :
  reachable indices seed (S d) x
  ↔ reachable indices seed d x
    ∨ ∃ y row, reachable indices seed d y ∧ indices !! y = Some row
               ∧ Some x ∈ row.
Proof.
  split.
  - inversion 1; subst; [by left|]. right. by eexists _, _.
  - intros [H|(y & row & Hy & Hrow & Hx)];
      [by apply reach_stay | by eapply reach_hop].
Qed.

Lemma iterate_indices_reachable indices seed (k : nat) ix :
  iterate_indices indices [seed] (Z.of_nat (S k)) = Some ix →
  ∀ x, x ∈ ix ↔ reachable indices seed (S k) x.
Proof.
  revert ix. induction k as [|k IH]; intros ix Hix x.
  - rewrite iterate_indices_low in Hix by lia.
    rewrite (elem_of_append_neighbors _ _ _ _ Hix), reachable_S.
    setoid_rewrite reachable_0. setoid_rewrite list_elem_of_singleton.
    done.
  - rewrite iterate_indices_succ in Hix.
    destruct (iterate_indices indices [seed] (Z.of_nat (S k))) as [ix'|]
      eqn:Hix'; [|done].
    simpl in Hix.
    rewrite (elem_of_append_neighbors _ _ _ _ Hix), (reachable_S _ _ (S k)).
    specialize (IH ix' eq_refl). setoid_rewrite IH. done.
Qed.

(** X1. Without a cap, the closure at depth [d >= 1] is the set of the
    cells at most [d] hops away from the seed. *)
Theorem closure_is_reachability rng (indices : table) (seed : nat) (d : Z)
    (r : list nat) :
  1 ≤ d →
  get_iterative_indices rng indices seed d None = Some r →
  ∀ x, x ∈ r ↔ reachable indices seed (Z.to_nat d) x.
Proof.
  intros Hd. rewrite get_iterative_indices_uncapped. intros Hr x.
  destruct (iterate_indices indices [seed] d) as [ix|] eqn:Hix; simplify_eq/=.
  rewrite elem_of_unique.
  destruct (Z.to_nat d) as [|k] eqn:Hk; [lia|].
  apply (iterate_indices_reachable indices seed k).
  by replace (Z.of_nat (S k)) with d by lia.
Qed.

Lemma closure_is_reachability_witness :
  1 ≤ 2
  ∧ get_iterative_indices (seq 0) chain 0 2 None = Some [0; 1; 2]%nat
  ∧ (2%nat ∈ [0; 1; 2]%nat ↔ reachable chain 0 (Z.to_nat 2) 2).
Proof.
  assert (Hd : 1 ≤ 2) by lia.
  assert (Hr : get_iterative_indices (seq 0) chain 0 2 None
               = Some [0; 1; 2]%nat) by reflexivity.
  split; [exact Hd|]. split; [exact Hr|].
  exact (closure_is_reachability (seq 0) chain 0 2 _ Hd Hr 2%nat).
Defined.

(** X2. A depth of one or less is the depth one: the recursion has no
    level below the seed with its direct neighbours. *)
Theorem closure_depth_below_1 rng (indices : table) (seed : nat) (d : Z)
    (max_neighs : option Z) :
  d ≤ 1 →
  get_iterative_indices rng indices seed d max_neighs
  = get_iterative_indices rng indices seed 1 max_neighs.
Proof.
  intros Hd. unfold get_iterative_indices.
  by rewrite !iterate_indices_low by lia.
Qed.

Lemma closure_depth_below_1_witness :
  -3 ≤ 1
  ∧ get_iterative_indices (seq 0) chain 0 (-3) None
    = get_iterative_indices (seq 0) chain 0 1 None.
Proof.
  assert (Hd : -3 ≤ 1) by lia. split; [exact Hd|].
  exact (closure_depth_below_1 (seq 0) chain 0 (-3) None Hd).
Defined.

Lemma append_neighbors_is_Some (indices : table) index :
  is_Some (append_neighbors indices index) ↔ rows_in_range indices index.
Proof.
  rewrite append_neighbors_eq. unfold take_rows, rows_in_range.
  split.
  - intros [r Hr].
    destruct (mapM (λ i, indices !! i) index) as [rows|] eqn:Hrows; [|done].
    assert (is_Some (mapM (λ i, indices !! i) index)) as Hsome by by eexists.
    apply mapM_is_Some in Hsome. eapply Forall_impl; [exact Hsome|].
    intros i Hi. by apply lookup_lt_is_Some.
  - intros Hix.
    assert (is_Some (mapM (λ i, indices !! i) index)) as [rows ->].
    { apply mapM_is_Some. eapply Forall_impl; [exact Hix|].
      intros i Hi. by apply lookup_lt_is_Some. }
    by eexists.
Qed.

Lemma unique_ext (l l' : list nat) :
  (∀ x, x ∈ l ↔ x ∈ l') → unique l = unique l'.
Proof.
  intros Hll'. apply (StronglySorted_unique_strong lt).
  - intros x1 x2 _ _ ? ?. lia.
  - apply unique_sorted.
  - apply unique_sorted.
  - apply NoDup_Permutation; [apply unique_NoDup..|].
    intros x. by rewrite !elem_of_unique.
Qed.

Lemma unique_inv (l l' : list nat) :
  unique l = unique l' → ∀ x, x ∈ l ↔ x ∈ l'.
Proof.
  intros Heq x.
  by rewrite <-(elem_of_unique l), <-(elem_of_unique l'), Heq.
Qed.

Lemma append_neighbors_ext (indices : table) (a b a' b' : list nat) :
  (∀ x, x ∈ a ↔ x ∈ b) →
  append_neighbors indices a = Some a' →
  append_neighbors indices b = Some b' →
  ∀ x, x ∈ a' ↔ x ∈ b'.
Proof.
  intros Hab Ha Hb x.
  rewrite (elem_of_append_neighbors _ _ _ _ Ha).
  rewrite (elem_of_append_neighbors _ _ _ _ Hb).
  by setoid_rewrite Hab.
Qed.

Lemma closure_step_eq (indices : table) seed (k : nat) :
  unique <$> iterate_indices indices [seed] (Z.of_nat (S k))
  = unique <$> iterate_indices indices [seed] (Z.of_nat (S (S k))) →
  unique <$> iterate_indices indices [seed] (Z.of_nat (S (S k)))
  = unique <$> iterate_indices indices [seed] (Z.of_nat (S (S (S k)))).
Proof.
  rewrite (iterate_indices_succ _ _ (S k)), (iterate_indices_succ _ _ k).
  destruct (iterate_indices indices [seed] (Z.of_nat (S k))) as [a|];
    [|done].
  simpl. destruct (append_neighbors indices a) as [b|] eqn:Hb; [|done].
  simpl. intros [= Hab]. pose proof (unique_inv _ _ Hab) as Hel.
  assert (is_Some (append_neighbors indices b)) as [c Hc].
  { apply append_neighbors_is_Some. apply Forall_forall. intros y Hy.
    apply Hel in Hy.
    assert (rows_in_range indices a) as Ha
      by (apply append_neighbors_is_Some; by eexists).
    by eapply Forall_forall in Ha. }
  rewrite Hc. simpl. f_equal. apply unique_ext.
  by apply (append_neighbors_ext indices a b).
Qed.

(** X3. Once a further hop adds no cell, none does: if the uncapped
    closures at depths [d >= 1] and [d + 1] are the same, the closure at
    every larger depth is that one too. *)
Theorem closure_saturates rng (indices : table) (seed : nat) (d d' : Z) :
  1 ≤ d → d ≤ d' →
  get_iterative_indices rng indices seed d None
  = get_iterative_indices rng indices seed (d + 1) None →
  get_iterative_indices rng indices seed d' None
  = get_iterative_indices rng indices seed d None.
Proof.
  intros Hd Hdd'. rewrite !get_iterative_indices_uncapped.
  destruct (Z.to_nat d) as [|k] eqn:Hk; [lia|].
  replace d with (Z.of_nat (S k)) by lia.
  replace (Z.of_nat (S k) + 1) with (Z.of_nat (S (S k))) by lia.
  replace d' with (Z.of_nat (S (k + Z.to_nat (d' - d)))) by lia.
  generalize (Z.to_nat (d' - d)). clear. intros j Heq.
  assert (unique <$> iterate_indices indices [seed] (Z.of_nat (S (k + j)))
          = unique <$> iterate_indices indices [seed] (Z.of_nat (S k))
          ∧ unique <$> iterate_indices indices [seed]
                         (Z.of_nat (S (S (k + j))))
            = unique <$> iterate_indices indices [seed] (Z.of_nat (S k)))
    as [H _]; [|done].
  induction j as [|j [IH1 IH2]].
  - rewrite Nat.add_0_r. by split.
  - replace (k + S j)%nat with (S (k + j)) by lia. split; [done|].
    rewrite <-IH2. symmetry. apply closure_step_eq. by rewrite IH1, IH2.
Qed.

Lemma closure_saturates_witness :
  1 ≤ 3 ∧ 3 ≤ 7
  ∧ get_iterative_indices (seq 0) chain 0 3 None
    = get_iterative_indices (seq 0) chain 0 (3 + 1) None
  ∧ get_iterative_indices (seq 0) chain 0 7 None
    = get_iterative_indices (seq 0) chain 0 3 None.
Proof.
  assert (H1 : 1 ≤ 3) by lia. assert (H2 : 3 ≤ 7) by lia.
  assert (H3 : get_iterative_indices (seq 0) chain 0 3 None
               = get_iterative_indices (seq 0) chain 0 (3 + 1) None)
    by reflexivity.
  split; [exact H1|]. split; [exact H2|]. split; [exact H3|].
  exact (closure_saturates (seq 0) chain 0 3 7 H1 H2 H3).
Defined.

(** X4. The cap at its edges: a cap that the closure does not exceed
    changes nothing, whatever the random source, and a negative cap makes
    the call raise. *)
Theorem closure_cap_edges rng (indices : table) (seed : nat) (d : Z)
    (max_neighs : Z) (closure : list nat) :
  get_iterative_indices rng indices seed d None = Some closure →
  (Z.of_nat (length closure) ≤ max_neighs →
   get_iterative_indices rng indices seed d (Some max_neighs)
   = Some closure)
  ∧ (max_neighs < 0 →
     get_iterative_indices rng indices seed d (Some max_neighs) = None).
Proof.
  rewrite get_iterative_indices_uncapped. unfold get_iterative_indices.
  destruct (iterate_indices indices [seed] d) as [ix|]; [|done].
  simpl. intros [= <-]. split; intros Hm.
  - by rewrite decide_False by lia.
  - rewrite decide_True by lia. unfold random_choice.
    by rewrite decide_True by lia.
Qed.

Lemma closure_cap_edges_witness :
  get_iterative_indices (seq 0) triangle 0 2 None = Some [0; 1; 2]%nat
  ∧ get_iterative_indices (seq 0) triangle 0 2 (Some 3)
    = Some [0; 1; 2]%nat
  ∧ get_iterative_indices (seq 0) triangle 0 2 (Some (-1)) = None.
Proof.
  assert (H : get_iterative_indices (seq 0) triangle 0 2 None
              = Some [0; 1; 2]%nat) by reflexivity.
  split; [exact H|].
  destruct (closure_cap_edges (seq 0) triangle 0 2 3 _ H) as [Hle _].
  destruct (closure_cap_edges (seq 0) triangle 0 2 (-1) _ H) as [_ Hneg].
  split; [apply Hle; simpl; lia | apply Hneg; lia].
Defined.

Lemma iterate_indices_out_of_range (indices : table) seed n :
  (length indices ≤ seed)%nat → iterate_indices indices [seed] n = None.
Proof.
  intros Hseed.
  assert (append_neighbors indices [seed] = None) as Hnone.
  { destruct (append_neighbors indices [seed]) as [r|] eqn:Hr; [|done].
    assert (rows_in_range indices [seed]) as Hin
      by (apply append_neighbors_is_Some; by eexists).
    apply Forall_cons in Hin as [Hlt _]. lia. }
  remember (Z.to_nat n) as k eqn:Hk. revert n Hk.
  induction k as [|k IH]; intros n Hk;
    rewrite iterate_indices_eq; case_decide; try lia; simpl; try done.
  by rewrite (IH (n - 1)) by lia.
Qed.

(** X5. A seed that is no row of the table makes the call raise, at every
    depth and with every cap. *)
Theorem closure_seed_out_of_range rng (indices : table) (seed : nat)
    (d : Z) (max_neighs : option Z) :
  (length indices ≤ seed)%nat →
  get_iterative_indices rng indices seed d max_neighs = None.
Proof.
  intros Hseed. unfold get_iterative_indices.
  by rewrite iterate_indices_out_of_range.
Qed.

Lemma closure_seed_out_of_range_witness :
  (length triangle ≤ 3)%nat
  ∧ get_iterative_indices (seq 0) triangle 3 2 None = None.
Proof.
  assert (H : (length triangle ≤ 3)%nat) by (simpl; lia).
  split; [exact H|].
  exact (closure_seed_out_of_range (seq 0) triangle 3 2 None H).
Defined.

(** X6. On a table whose entries are row numbers, every index of the
    uncapped closure is a row number, so the closure has no more elements
    than the table has rows. *)
Theorem closure_bounded rng (indices : table) (seed : nat) (d : Z)
    (r : list nat) :
  table_ok indices → (seed < length indices)%nat →
  get_iterative_indices rng indices seed d None = Some r →
  Forall (λ x, x < length indices)%nat r
  ∧ (length r ≤ length indices)%nat.
Proof.
  intros Hok Hseed. rewrite get_iterative_indices_uncapped. intros Hr.
  destruct (iterate_indices_total indices [seed] d Hok) as (ix & Hix & Hin);
    [by repeat constructor|].
  rewrite Hix in Hr. simpl in Hr. injection Hr as <-.
  assert (Forall (λ x, x < length indices)%nat (unique ix)) as Hall.
  { apply Forall_forall. intros x Hx. rewrite elem_of_unique in Hx.
    unfold rows_in_range in Hin. by eapply Forall_forall in Hin. }
  split; [done|].
  transitivity (length (seq 0 (length indices))); [|by rewrite length_seq].
  apply submseteq_length.
  apply NoDup_submseteq; [apply unique_NoDup|].
  intros x Hx. eapply Forall_forall in Hall; [|exact Hx].
  apply elem_of_seq. lia.
Qed.

Lemma closure_bounded_witness :
  table_ok chain ∧ (0 < length chain)%nat
  ∧ Forall (λ x, x < length chain)%nat [0; 1; 2; 3]%nat
  ∧ (length [0; 1; 2; 3]%nat ≤ length chain)%nat.
Proof.
  assert (Hlt : (0 < length chain)%nat) by (simpl; lia).
  split; [exact chain_ok|]. split; [exact Hlt|].
  exact (closure_bounded (seq 0) chain 0 5 _ chain_ok Hlt eq_refl).
Defined.

(** ** More on [get_indices] *)

Lemma get_indices_distances {AS : ArgSort} {CK : ConnectivityKernel}
    (dist : csr) k indices D :
  nonneg dist →
  get_indices dist k Distances = Some (indices, D) →
  ∃ n, effective_neighbors (length <$> canonical dist) k = Some n ∧ 1 ≤ n
       ∧ D = prune1 n <$> canonical dist
       ∧ indices = (λ row : list entry, Some <$> (fst <$> row)) <$> D.
Proof.
  intros HD Hget.
  destruct (get_indices_canonical dist k Distances indices D HD Hget)
    as (n & Hn & Hpos & Hle & -> & Hix).
  pose proof (canonical_nonneg dist HD) as HD1.
  exists n. split; [done|]. split; [lia|]. split; [done|].
  unfold neighbor_indices in Hix.
  rewrite csr_indices_join, reshape_join in Hix; [|lia|].
  - cbn [mbind option_bind] in Hix. injection Hix as <-.
    by rewrite <-list_fmap_compose.
  - apply Forall_fmap, Forall_fmap, Forall_forall. intros row Hrow.
    unfold compose. rewrite length_fmap.
    apply list_elem_of_lookup in Hrow as [i Hi].
    apply prune1_length; [|by eapply nonneg_row].
    eapply Forall_lookup_1 in Hle; [|exact Hi]. simpl in Hle. lia.
Qed.



(** X8. On a distance matrix the default mode returns exactly when there
    is a row, no row is empty, and the requested count, if any, is at
    least one; otherwise it raises. *)
Theorem get_indices_returns_iff {AS : ArgSort} {CK : ConnectivityKernel}
    (dist : csr) (k : option Z) :
  nonneg dist →
  is_Some (get_indices dist k Distances)
  ↔ dist ≠ [] ∧ Forall (λ row : list entry, row ≠ []) dist
    ∧ ∀ k', k = Some k' → 1 ≤ k'.
Proof.
  intros HD. split.
  - intros [[ix D] Hget].
    destruct (get_indices_distances dist k ix D HD Hget)
      as (n & Hn & Hpos & _ & _).
    apply effective_neighbors_le in Hn as (Hne & Hle & Hk).
    split; [by intros ->|]. split.
    + apply Forall_forall. intros row Hrow ->.
      eapply Forall_forall in Hle;
        [|apply (list_elem_of_fmap_2 canonical_row), Hrow].
      simpl in Hle. lia.
    + intros k' Hk'. specialize (Hk k' Hk'). lia.
  - intros (Hne & Hrows & Hk). by apply get_indices_returns.
Qed.

Lemma get_indices_returns_iff_witness :
  nonneg five_cells
  ∧ (is_Some (@get_indices stable_argsort distance_kernel five_cells
                           (Some 0) Distances)
     ↔ five_cells ≠ []
       ∧ Forall (λ row : list entry, row ≠ []) five_cells
       ∧ ∀ k', Some 0 = Some k' → 1 ≤ k').
Proof.
  split; [exact five_cells_nonneg|].
  exact (@get_indices_returns_iff stable_argsort distance_kernel five_cells
           (Some 0) five_cells_nonneg).
Defined.

Lemma pruned_row_entries (n : nat) (row row' : list entry) :
  pruned_row n row row' → ∀ e, e ∈ row' → e ∈ row.
Proof.
  intros (kept & _ & _ & HF & _) e He.
  apply list_elem_of_lookup in He as [p Hp].
  destruct (Forall2_lookup_r _ _ _ _ _ HF Hp) as (i & _ & Hi).
  by eapply list_elem_of_lookup_2.
Qed.

(** X9. The index table that the default mode returns for a distance
    matrix between the cells (every column index a row number) has one
    row per cell and only row numbers as entries, so the closure of every
    cell exists on it at every depth. *)
Theorem get_indices_feeds_closure {AS : ArgSort} {CK : ConnectivityKernel}
    (dist : csr) (k : option Z) (indices : table) (D : csr) :
  nonneg dist →
  Forall (Forall (λ e : entry, e.1 < length dist)%nat) dist →
  get_indices dist k Distances = Some (indices, D) →
  length indices = length dist
  ∧ table_ok indices
  ∧ ∀ rng seed d, (seed < length dist)%nat →
      is_Some (get_iterative_indices rng indices seed d None).
Proof.
  intros HD Hcols Hget.
  destruct (get_indices_distances dist k indices D HD Hget)
    as (n & Hn & Hpos & HD' & ->).
  pose proof (canonical_nonneg dist HD) as HD1.
  assert (Forall2 (pruned_row (Z.to_nat n)) (canonical dist) D) as Hrows.
  { apply effective_neighbors_le in Hn as (_ & Hle & _). subst D.
    by apply prune1_rows_pruned. }
  assert (length ((λ row : list entry, Some <$> (fst <$> row)) <$> D)
          = length dist) as Hlen.
  { rewrite length_fmap. apply Forall2_length in Hrows.
    unfold canonical in Hrows. rewrite length_fmap in Hrows. done. }
  assert (table_ok ((λ row : list entry, Some <$> (fst <$> row)) <$> D))
    as Hok.
  { unfold table_ok. rewrite Hlen.
    apply Forall_fmap, Forall_forall. intros row' Hrow'. unfold compose.
    apply Forall_fmap, Forall_fmap, Forall_forall. intros e He.
    unfold compose. simpl.
    apply list_elem_of_lookup in Hrow' as [i Hi].
    destruct (Forall2_lookup_r _ _ _ _ _ Hrows Hi) as (row1 & Hrow1 & Hpr).
    apply (pruned_row_entries _ _ _ Hpr) in He.
    unfold canonical in Hrow1. rewrite list_lookup_fmap in Hrow1.
    destruct (dist !! i) as [row|] eqn:Hrow; [|done].
    simpl in Hrow1. injection Hrow1 as <-.
    assert (e.1 ∈ row.*1) as Hcol.
    { apply canonical_row_columns. by apply list_elem_of_fmap_2. }
    apply list_elem_of_fmap in Hcol as (e0 & -> & He0).
    eapply Forall_lookup_1 in Hcols; [|exact Hrow].
    by eapply Forall_forall in Hcols. }
  split; [done|]. split; [done|].
  intros rng seed d Hseed. apply get_iterative_indices_total; [done|].
  by rewrite Hlen.
Qed.

Lemma get_indices_feeds_closure_witness :
  let indices := [ [Some 1; Some 3]; [Some 0; Some 3]; [Some 0; Some 3];
                   [Some 0; Some 2]; [Some 0; Some 2] ]%nat in
  length indices = length five_cells
  ∧ table_ok indices
  ∧ ∀ rng seed d, (seed < length five_cells)%nat →
      is_Some (get_iterative_indices rng indices seed d None).
Proof.
  intros indices.
  eapply (@get_indices_feeds_closure stable_argsort distance_kernel
            five_cells (Some 2) indices).
  - exact five_cells_nonneg.
  - repeat constructor.
  - vm_compute. reflexivity.
Defined.

(** ** [get_indices_from_csr] *)





(** ** More on [geometric_matrix_sum] *)

Lemma geometric_matrix_sum_low (C : matrix) n :
  n ≤ 1 → geometric_matrix_sum C n = C.
Proof.
  intros Hn. rewrite geometric_matrix_sum_eq.
  rewrite !decide_False by lia. apply madd_dot_zero.
Qed.

(** X11. The result has the shape of [C] for every [n_power], and a power
    of one or less gives [C] itself. *)
Theorem geometric_matrix_sum_shape (k : nat) (C : matrix) (n_power : Z) :
  square k C →
  square k (geometric_matrix_sum C n_power)
  ∧ (n_power ≤ 1 → geometric_matrix_sum C n_power = C).
Proof.
  intros HC. split; [|apply geometric_matrix_sum_low].
  destruct (decide (n_power ≤ 1)) as [Hn|Hn].
  - by rewrite geometric_matrix_sum_low.
  - replace n_power with (Z.of_nat (S (Z.to_nat (n_power - 1)))) by lia.
    by apply square_geometric_matrix_sum.
Qed.

Lemma geometric_matrix_sum_shape_witness :
  let C := [[1; 2]; [3; 4]] in
  square 2 C
  ∧ square 2 (geometric_matrix_sum C 5)
  ∧ (-2 ≤ 1 → geometric_matrix_sum C (-2) = C).
Proof.
  intros C.
  assert (HC : square 2 C) by (split; [reflexivity | repeat constructor]).
  split; [exact HC|]. split.
  - exact (proj1 (geometric_matrix_sum_shape 2 C 5 HC)).
  - exact (proj2 (geometric_matrix_sum_shape 2 C (-2) HC)).
Defined.

(** ** [get_duplicates] *)

Section items_facts.
Context {A : Type} `{EqDecision A}.
Implicit Types (x y : A) (l : list A) (c : list (A * nat)).

Lemma count_in_nil x : count_in x [] = 0%nat.
Proof. done. Qed.

Lemma count_in_cons x y l :
  count_in x (y :: l)
  = ((if decide (y = x) then 1 else 0) + count_in x l)%nat.
Proof. unfold count_in. rewrite filter_cons. by case_decide. Qed.

Lemma count_in_app x l l' :
  count_in x (l ++ l') = (count_in x l + count_in x l')%nat.
Proof. unfold count_in. by rewrite filter_app, length_app. Qed.

Lemma count_in_pos x l : (0 < count_in x l)%nat ↔ x ∈ l.
Proof.
  induction l as [|y l IH]; [rewrite elem_of_nil, count_in_nil; lia|].
  rewrite count_in_cons, elem_of_cons. case_decide; subst; [|rewrite <-IH].
  - split; [by left | lia].
  - split; [by right | intros [->|]; [done | lia]].
Qed.

Lemma NoDup_count_in l : NoDup l ↔ ∀ x, (count_in x l ≤ 1)%nat.
Proof.
  induction l as [|y l IH].
  - split; [intros _ x; rewrite count_in_nil; lia | constructor].
  - rewrite NoDup_cons, IH. setoid_rewrite count_in_cons. split.
    + intros [Hy Hl] x. specialize (Hl x). case_decide; subst; [|lia].
      assert (¬ (0 < count_in x l)%nat) by by rewrite count_in_pos. lia.
    + intros Hall. split.
      * intros Hy%count_in_pos. specialize (Hall y).
        rewrite decide_True in Hall by done. lia.
      * intros x. specialize (Hall x). case_decide; lia.
Qed.

Lemma counter_add_keys x c :
  (counter_add x c).*1 = if decide (x ∈ c.*1) then c.*1 else c.*1 ++ [x].
Proof.
  induction c as [|[y n] c IH].
  - destruct (decide (x ∈ ([] : list (A * nat)).*1)) as [Hin|Hin];
      [by apply elem_of_nil in Hin | done].
  - cbn [counter_add]. rewrite !fmap_cons. cbn [fst].
    destruct (decide (x = y)) as [->|Hxy].
    + rewrite fmap_cons. cbn [fst].
      by rewrite decide_True by apply list_elem_of_here.
    + rewrite fmap_cons, IH. cbn [fst].
      destruct (decide (x ∈ c.*1)) as [Hin|Hin].
      * by rewrite decide_True by by apply list_elem_of_further.
      * rewrite decide_False; [done|].
        intros [?|?]%elem_of_cons; done.
Qed.

#[local] Set Warnings "-clear-no-such-hyp".

Lemma elem_of_counter_add x c y n :
  NoDup c.*1 →
  (y, n) ∈ counter_add x c
  ↔ (y ≠ x ∧ (y, n) ∈ c)
    ∨ (y = x ∧ (((x ∉ c.*1) ∧ n = 1%nat) ∨ ∃ n', (x, n') ∈ c ∧ n = S n')).
Proof.
  induction c as [|[z m] c IH]; intros Hnd.
  - cbn [counter_add]. rewrite list_elem_of_singleton.
    setoid_rewrite elem_of_nil. naive_solver.
  - rewrite fmap_cons in Hnd |- *. cbn [fst] in Hnd |- *.
    apply NoDup_cons in Hnd as [Hz Hnd]. specialize (IH Hnd).
    assert (∀ k, (z, k) ∉ c) as Hz'.
    { intros k Hin. apply Hz, list_elem_of_fmap. by exists (z, k). }
    cbn [counter_add]. rewrite not_elem_of_cons.
    setoid_rewrite elem_of_cons.
    destruct (decide (x = z)) as [->|Hxz].
    + setoid_rewrite elem_of_cons. naive_solver.
    + setoid_rewrite elem_of_cons. rewrite IH. naive_solver.
Qed.

Lemma counter_ok_keys c l y : counter_ok c l → y ∈ c.*1 ↔ y ∈ l.
Proof.
  intros [_ Hc]. rewrite list_elem_of_fmap, <-count_in_pos. split.
  - intros ([y' n] & -> & Hin). apply Hc in Hin as [? ->]. done.
  - intros Hpos. exists (y, count_in y l). split; [done|]. by apply Hc.
Qed.

Lemma counter_ok_add c l x :
  counter_ok c l → counter_ok (counter_add x c) (l ++ [x]).
Proof.
  intros Hok. pose proof Hok as [Hnd Hc]. split.
  - rewrite counter_add_keys. case_decide as Hin; [done|].
    apply NoDup_app. split; [done|]. split; [|apply NoDup_singleton].
    intros y Hy ->%list_elem_of_singleton. done.
  - intros y n. rewrite elem_of_counter_add by done.
    rewrite count_in_app, count_in_cons, count_in_nil.
    rewrite (counter_ok_keys c l x Hok), <-count_in_pos.
    setoid_rewrite Hc. split.
    + intros [[Hyx [Hn ->]]|[-> [[Hnin ->]|(n' & [Hn' ->] & ->)]]].
      * rewrite decide_False by done. lia.
      * rewrite decide_True by done. lia.
      * rewrite decide_True by done. lia.
    + intros [Hn ->]. destruct (decide (x = y)) as [->|Hxy].
      * right. split; [done|].
        destruct (decide (0 < count_in y l)%nat) as [Hpos|Hpos].
        -- right. exists (count_in y l). split; [done | lia].
        -- left. split; [done | lia].
      * left. split; [done|]. split; lia.
Qed.

Lemma Counter_ok l : counter_ok (Counter l) l.
Proof.
  induction l as [|x l IH] using rev_ind.
  - split; [constructor|]. intros y n. rewrite elem_of_nil.
    rewrite count_in_nil. lia.
  - unfold Counter. rewrite foldl_snoc. by apply counter_ok_add.
Qed.

Lemma Counter_keys_sublist l : (Counter l).*1 `sublist_of` l.
Proof.
  induction l as [|x l IH] using rev_ind; [done|].
  unfold Counter. rewrite foldl_snoc. fold (Counter l).
  rewrite counter_add_keys. case_decide.
  - by apply sublist_inserts_r.
  - by apply sublist_app.
Qed.

Lemma elem_of_first_occurrences l x : x ∈ first_occurrences l ↔ x ∈ l.
Proof.
  induction l as [|y l IH]; [done|]. cbn [first_occurrences].
  rewrite !elem_of_cons, list_elem_of_filter, IH.
  destruct (decide (x = y)); naive_solver.
Qed.

Lemma first_occurrences_snoc l z :
  first_occurrences (l ++ [z])
  = if decide (z ∈ l) then first_occurrences l else first_occurrences l ++ [z].
Proof.
  induction l as [|x l IH].
  - cbn. rewrite decide_False; [done|]. apply not_elem_of_nil.
  - cbn [app first_occurrences]. rewrite IH.
    destruct (decide (z ∈ l)) as [Hin|Hin].
    + rewrite decide_True; [done|]. by right.
    + rewrite filter_app, filter_cons, filter_nil.
      destruct (decide (z = x)) as [->|Hne].
      * rewrite decide_False by (by intros ?). rewrite app_nil_r.
        rewrite decide_True; [done|]. by left.
      * rewrite decide_True by done. rewrite decide_False; [done|].
        by intros [?|?]%elem_of_cons.
Qed.

Lemma Counter_keys l : (Counter l).*1 = first_occurrences l.
Proof.
  induction l as [|z l IH] using rev_ind; [done|].
  unfold Counter. rewrite foldl_snoc. fold (Counter l).
  rewrite counter_add_keys, first_occurrences_snoc, IH.
  destruct (decide (z ∈ first_occurrences l)) as [Hin|Hin].
  - rewrite decide_True; [done|]. by apply elem_of_first_occurrences.
  - rewrite decide_False; [done|]. by rewrite <-elem_of_first_occurrences.
Qed.

Lemma filter_fst (P : A * nat → Prop) (Q : A → Prop)
    `{∀ p, Decision (P p)} `{∀ x, Decision (Q x)} (c : list (A * nat)) :
  (∀ p, p ∈ c → P p ↔ Q p.1) →
  fst <$> filter P c = filter Q (fst <$> c).
Proof.
  induction c as [|p c IH]; intros HPQ; [done|].
  rewrite fmap_cons, !filter_cons.
  pose proof (HPQ p (list_elem_of_here _ _)) as Hp.
  assert (fst <$> filter P c = filter Q c.*1) as IH'.
  { apply IH. intros q Hq. apply HPQ. by right. }
  repeat case_decide; try tauto.
  rewrite fmap_cons. by f_equal.
Qed.

Lemma filter_split (P : A → Prop) `{∀ x, Decision (P x)} (L r1 r2 : list A)
    x :
  filter P L = r1 ++ x :: r2 →
  ∃ a b, L = a ++ x :: b ∧ filter P a = r1 ∧ filter P b = r2 ∧ P x.
Proof.
  revert r1. induction L as [|h t IH]; intros r1 Heq.
  - by destruct r1.
  - rewrite filter_cons in Heq. case_decide as Hh.
    + destruct r1 as [|h' r1]; cbn in Heq; injection Heq as Hhead Heq.
      * subst h. exists [], t. by rewrite Heq.
      * subst h'. destruct (IH r1 Heq) as (a & b & -> & <- & <- & Hx).
        exists (h :: a), b. rewrite filter_cons, decide_True by done.
        done.
    + destruct (IH r1 Heq) as (a & b & -> & <- & <- & Hx).
      exists (h :: a), b. rewrite filter_cons, decide_False by done.
      done.
Qed.

Lemma first_occurrences_split l a x b :
  first_occurrences l = a ++ x :: b →
  ∃ l1 l2, l = l1 ++ x :: l2 ∧ (x ∉ l1)
           ∧ (∀ y, y ∈ a ↔ y ∈ l1) ∧ (∀ y, y ∈ b → y ∉ l1).
Proof.
  revert a b. induction l as [|z l IH]; intros a b Heq.
  - by destruct a.
  - cbn [first_occurrences] in Heq.
    destruct a as [|z' a]; cbn in Heq; injection Heq as Hhead Heq.
    + subst z. exists [], l. split; [done|]. split; [apply not_elem_of_nil|].
      split; [done|]. intros y _. apply not_elem_of_nil.
    + subst z'.
      apply filter_split in Heq as (a0 & b0 & Hfo & <- & <- & Hx).
      destruct (IH a0 b0 Hfo) as (l1 & l2 & -> & Hnin & Ha & Hb).
      exists (z :: l1), l2. split; [done|].
      split; [by intros [?|?]%elem_of_cons|]. split.
      * intros y. rewrite !elem_of_cons, list_elem_of_filter, Ha.
        destruct (decide (y = z)); naive_solver.
      * intros y [Hy Hin]%list_elem_of_filter [?|?]%elem_of_cons; [done|].
        by apply (Hb y).
Qed.

(** X12. [get_duplicates] lists exactly the items that occur at least
    twice, each once, in the order of their first occurrences: the result
    is the list of the distinct items in that order, cut down to those
    that occur twice; cutting the result at one of its items cuts the
    array at the first occurrence of that item, the items before it in
    the result occurring before that place and the items after it not.
    The result is empty exactly on an array without repetition. *)
Theorem get_duplicates_spec l :
  NoDup (get_duplicates l)
  ∧ (∀ x, x ∈ get_duplicates l ↔ (2 ≤ count_in x l)%nat)
  ∧ get_duplicates l `sublist_of` l
  ∧ (get_duplicates l = [] ↔ NoDup l)
  ∧ get_duplicates l
    = filter (λ x, (2 ≤ count_in x l)%nat) (first_occurrences l)
  ∧ (∀ r1 x r2, get_duplicates l = r1 ++ x :: r2 →
       ∃ l1 l2, l = l1 ++ x :: l2 ∧ (x ∉ l1)
                ∧ (∀ y, y ∈ r1 → y ∈ l1) ∧ (∀ y, y ∈ r2 → y ∉ l1)).
Proof.
  pose proof (Counter_ok l) as [Hnd Hc].
  assert (get_duplicates l `sublist_of` (Counter l).*1) as Hsub.
  { unfold get_duplicates. apply fmap_sublist, sublist_filter. }
  assert (∀ x, x ∈ get_duplicates l ↔ (2 ≤ count_in x l)%nat) as Hel.
  { intros x. unfold get_duplicates.
    rewrite list_elem_of_fmap. split.
    - intros ([y n] & -> & [Hn Hin]%list_elem_of_filter).
      apply Hc in Hin as [_ ->]. simpl in *. lia.
    - intros Hx. exists (x, count_in x l). split; [done|].
      apply list_elem_of_filter. split; [simpl; lia|].
      apply Hc. split; [lia | done]. }
  assert (get_duplicates l
          = filter (λ x, (2 ≤ count_in x l)%nat) (first_occurrences l))
    as Heq.
  { unfold get_duplicates. rewrite <-Counter_keys. apply filter_fst.
    intros [y n] Hin. apply Hc in Hin as [_ ->]. simpl. lia. }
  split; [by eapply sublist_NoDup|]. split; [done|].
  split; [etrans; [exact Hsub | apply Counter_keys_sublist]|].
  split; [|split; [done|]].
  - rewrite NoDup_count_in. split.
    + intros Hnil x.
      destruct (decide (2 ≤ count_in x l)%nat) as [Hx|Hx]; [|lia].
      apply Hel in Hx. rewrite Hnil in Hx. by apply elem_of_nil in Hx.
    + intros Hall. apply elem_of_nil_inv. intros x Hx%Hel.
      specialize (Hall x). lia.
  - intros r1 x r2 Hres. rewrite Heq in Hres.
    apply filter_split in Hres as (a & b & Hfo & <- & <- & _).
    destruct (first_occurrences_split l a x b Hfo)
      as (l1 & l2 & -> & Hnin & Ha & Hb).
    exists l1, l2. split; [done|]. split; [done|]. split.
    + intros y [_ Hy]%list_elem_of_filter. by apply Ha.
    + intros y [_ Hy]%list_elem_of_filter. by apply Hb.
Qed.

(** ** [isin] and [max] by a key *)

Lemma isin_lookup (x y : list A) i :
  isin x y !! i = Some true ↔ ∃ v, x !! i = Some v ∧ v ∈ y.
Proof.
  unfold isin. rewrite list_lookup_fmap.
  destruct (x !! i) as [v|]; simpl.
  - split.
    + intros [= Hv%bool_decide_eq_true]. by exists v.
    + intros (v' & [= <-] & Hv). f_equal. by apply bool_decide_eq_true.
  - split; [done | by intros (v & ? & _)].
Qed.

Lemma length_filter_true_fmap {B} (f : B → bool) (l : list B) :
  length (filter (λ b, b = true) (f <$> l))
  = length (filter (λ v, f v = true) l).
Proof.
  induction l as [|v l IH]; [done|].
  rewrite fmap_cons, !filter_cons. repeat case_decide; simpl; congruence.
Qed.

Lemma max_by_key_spec (key : A → nat) (s : list A) x :
  max_by_key key s = Some x →
  x ∈ s ∧ ∀ y, y ∈ s → (key y ≤ key x)%nat.
Proof.
  destruct s as [|z s]; [done|]. simpl. intros [= <-].
  assert (∀ best,
    let r := foldl (λ best y, if decide (key best < key y)%nat
                              then y else best) best s in
    (r = best ∨ r ∈ s) ∧ (key best ≤ key r)%nat
    ∧ ∀ y, y ∈ s → (key y ≤ key r)%nat) as Hfold.
  { induction s as [|y s IH]; intros best; simpl.
    - split; [by left|]. split; [lia|]. by intros y []%elem_of_nil.
    - specialize (IH (if decide (key best < key y)%nat then y else best)).
      simpl in IH. destruct IH as (Hr & Hle & Hall).
      split; [|split].
      + destruct Hr as [->|Hr]; [|right; by right].
        case_decide; [right; by left | by left].
      + case_decide; lia.
      + intros y' [->|Hy']%elem_of_cons; [|by apply Hall].
        case_decide; lia. }
  destruct (Hfold z) as (Hr & Hle & Hall). split.
  - destruct Hr as [->|Hr]; [by left | by right].
  - intros y [->|Hy]%elem_of_cons; [done | by apply Hall].
Qed.

End items_facts.

(** ** [indices_to_bool] *)

(** X13. The mask of [indices_to_bool] has [n] entries (none for a negative
    [n]); entry [i] is [True] exactly when [i] is one of the indices; and
    the number of [True] entries is the number of distinct indices below
    [n]: indices out of range and repetitions are dropped silently. *)
Theorem indices_to_bool_spec (indices : list nat) (n : Z) :
  length (indices_to_bool indices n) = Z.to_nat n
  ∧ (∀ i, indices_to_bool indices n !! i = Some true
          ↔ (i < Z.to_nat n)%nat ∧ i ∈ indices)
  ∧ length (filter (λ b, b = true) (indices_to_bool indices n))
    = length (remove_dups (filter (λ i, i < Z.to_nat n)%nat indices)).
Proof.
  unfold indices_to_bool. split; [|split].
  - unfold isin. by rewrite length_fmap, length_seq.
  - intros i. rewrite isin_lookup. split.
    + intros (v & Hv & Hin). apply lookup_seq in Hv as [-> ?]. done.
    + intros [Hi Hin]. exists i. split; [|done].
      by apply lookup_seq.
  - unfold isin. rewrite length_filter_true_fmap.
    apply Permutation_length, NoDup_Permutation.
    + apply NoDup_filter, NoDup_seq.
    + apply NoDup_remove_dups.
    + intros i. rewrite elem_of_remove_dups, !list_elem_of_filter.
      rewrite elem_of_seq, bool_decide_eq_true.
      split; intros [? ?]; (split; [lia || done | lia || done]).
Qed.

(** ** [most_common_in_list] *)

Lemma count_in_filter {A} `{EqDecision A} (P : A → Prop)
    `{∀ x, Decision (P x)} (x : A) (l : list A) :
  P x → count_in x (filter P l) = count_in x l.
Proof.
  intros HP. induction l as [|y l IH]; [done|].
  rewrite filter_cons. case_decide as Hy.
  - by rewrite !count_in_cons, IH.
  - rewrite count_in_cons, IH. rewrite decide_False; [done|].
    by intros ->.
Qed.

(** X14. [most_common_in_list] raises exactly when every item is [nan] or
    the string ["nan"]; otherwise it returns an item of the list that is
    neither, and no such item occurs more often in the list. *)
Theorem most_common_in_list_spec (set_order : list item → list item)
    (lst : list item) :
  set_order_ok set_order →
  (most_common_in_list set_order lst = None
   ↔ ∀ it, it ∈ lst → it = NaN ∨ it = Str "nan")
  ∧ (∀ x, most_common_in_list set_order lst = Some x →
       x ∈ lst ∧ x ≠ NaN ∧ x ≠ Str "nan"
       ∧ ∀ y, y ∈ lst → y ≠ NaN → y ≠ Str "nan" →
              (count_in y lst ≤ count_in x lst)%nat).
Proof.
  intros Hset. unfold most_common_in_list.
  set (valid := λ it : item, it ≠ NaN ∧ it ≠ Str "nan").
  set (lst' := filter valid lst).
  destruct (Hset lst') as [_ Hel]. split.
  - split.
    + intros Hnone it Hin.
      destruct (decide (it = NaN)) as [|H1]; [by left|].
      destruct (decide (it = Str "nan")) as [|H2]; [by right|].
      assert (it ∈ set_order lst') as Hit.
      { apply Hel, list_elem_of_filter. by split. }
      destruct (set_order lst'); [by apply elem_of_nil in Hit | done].
    + intros Hall. destruct (set_order lst') as [|it s] eqn:Hs; [done|].
      assert (it ∈ lst') as [[H1 H2] Hin]%list_elem_of_filter.
      { apply Hel. apply list_elem_of_here. }
      destruct (Hall it Hin); done.
  - intros x [Hx Hmax]%max_by_key_spec.
    apply Hel, list_elem_of_filter in Hx as [Hv Hx].
    split; [done|]. destruct Hv as [H1 H2]. do 2 (split; [done|]).
    intros y Hy Hy1 Hy2.
    assert (y ∈ set_order lst') as Hy'.
    { apply Hel, list_elem_of_filter. by split. }
    specialize (Hmax y Hy'). simpl in Hmax. fold valid lst' in Hmax.
    unfold lst' in Hmax.
    rewrite !(count_in_filter valid) in Hmax by done. done.
Qed.

Lemma most_common_in_list_spec_witness :
  let lst := [Str "b"; NaN; Str "a"; Str "nan"; Str "a"] in
  set_order_ok remove_dups
  ∧ most_common_in_list remove_dups lst = Some (Str "a")
  ∧ (most_common_in_list remove_dups lst = None
     ↔ ∀ it, it ∈ lst → it = NaN ∨ it = Str "nan").
Proof.
  intros lst.
  assert (set_order_ok remove_dups) as Hset.
  { intros l. split; [apply NoDup_remove_dups|].
    intros x. apply elem_of_remove_dups. }
  split; [exact Hset|]. split; [reflexivity|].
  exact (proj1 (most_common_in_list_spec remove_dups lst Hset)).
Defined.

(** ** [extract_int_from_str] *)

Lemma digit_value_nonneg c : 0 ≤ digit_value c.
Proof. unfold digit_value. destruct (Ascii.is_nat c); lia. Qed.

Lemma int_of_digits_snoc num c :
  int_of_digits (num ++ [c]) = 10 * int_of_digits num + digit_value c.
Proof. unfold int_of_digits. by rewrite foldl_snoc. Qed.

Lemma int_of_digits_nonneg num : 0 ≤ int_of_digits num.
Proof.
  induction num as [|c num IH] using rev_ind; [done|].
  rewrite int_of_digits_snoc. pose proof (digit_value_nonneg c). lia.
Qed.

Lemma int_of_digits_app a b :
  int_of_digits (a ++ b)
  = int_of_digits a * 10 ^ Z.of_nat (length b) + int_of_digits b.
Proof.
  induction b as [|c b IH] using rev_ind.
  - rewrite app_nil_r. cbn. lia.
  - rewrite app_assoc, !int_of_digits_snoc, IH, length_app. cbn [length].
    replace (Z.of_nat (length b + 1)) with (Z.succ (Z.of_nat (length b)))
      by lia.
    rewrite Z.pow_succ_r by lia. lia.
Qed.

Lemma list_ascii_of_string_app s t :
  String.list_ascii_of_string (s +:+ t)
  = String.list_ascii_of_string s ++ String.list_ascii_of_string t.
Proof. induction s as [|c s IH]; [done|]. cbn. by rewrite <-IH. Qed.

Lemma digits_of_app s t : digits_of (s +:+ t) = digits_of s ++ digits_of t.
Proof. unfold digits_of. by rewrite list_ascii_of_string_app, filter_app. Qed.

Lemma foldl_append_fmap {A B} (f : A → B) (acc : list B) (l : list A) :
  foldl (λ nums item, nums ++ [f item]) acc l = acc ++ (f <$> l).
Proof.
  revert acc. induction l as [|x l IH]; intros acc; simpl.
  - by rewrite app_nil_r.
  - by rewrite IH, <-app_assoc.
Qed.

(** X15. Reading the number of a string: the result is [-1] exactly when
    the string has no digit, and is not negative otherwise; the characters
    that are no digits are ignored, so that the digits of two strings that
    are joined are read as one number. *)
Theorem str_to_int_spec (s t : string) :
  (str_to_int s = -1 ↔ digits_of s = [])
  ∧ -1 ≤ str_to_int s
  ∧ (digits_of s = digits_of t → str_to_int s = str_to_int t)
  ∧ (digits_of t = [] → str_to_int (s +:+ t) = str_to_int s)
  ∧ (digits_of s = [] → str_to_int (s +:+ t) = str_to_int t)
  ∧ (digits_of s ≠ [] → digits_of t ≠ [] →
     str_to_int (s +:+ t)
     = str_to_int s * 10 ^ Z.of_nat (length (digits_of t)) + str_to_int t).
Proof.
  unfold str_to_int. rewrite digits_of_app.
  pose proof (int_of_digits_nonneg (digits_of s)) as Hs.
  split; [|split; [|split; [|split; [|split]]]].
  - destruct (digits_of s) as [|c l]; simpl; [done|].
    split; [lia | done].
  - case_decide; lia.
  - by intros ->.
  - intros ->. by rewrite app_nil_r.
  - by intros ->.
  - intros Hs' Ht'. rewrite length_app, int_of_digits_app.
    destruct (digits_of s) as [|c l]; [done|].
    destruct (digits_of t) as [|c' l']; [done|].
    cbn [length]. rewrite !decide_True by lia. done.
Qed.

Lemma str_to_int_spec_witness :
  str_to_int "cluster 1_2" = 12
  ∧ (digits_of "cluster 1_" ≠ [] → digits_of "2" ≠ [] →
     str_to_int ("cluster 1_" +:+ "2")
     = str_to_int "cluster 1_" * 10 ^ Z.of_nat (length (digits_of "2"))
       + str_to_int "2")
  ∧ (str_to_int "none" = -1 ↔ digits_of "none" = []).
Proof.
  split; [reflexivity|]. split.
  - exact (proj2 (proj2 (proj2 (proj2 (proj2
      (str_to_int_spec "cluster 1_" "2")))))).
  - exact (proj1 (str_to_int_spec "none" "")).
Defined.

Lemma digit_value_le c : digit_value c ≤ 9.
Proof.
  unfold digit_value.
  destruct c as [[] [] [] [] [] [] [] []]; cbn; lia.
Qed.

Lemma int_of_digits_lt num :
  int_of_digits num < 10 ^ Z.of_nat (length num).
Proof.
  induction num as [|c num IH] using rev_ind; [done|].
  rewrite int_of_digits_snoc, length_app. cbn [length].
  replace (Z.of_nat (length num + 1)) with (Z.succ (Z.of_nat (length num)))
    by lia.
  rewrite Z.pow_succ_r by lia. pose proof (digit_value_le c). lia.
Qed.

Lemma str_to_int_int64 (item : string) :
  (length (digits_of item) ≤ 18)%nat → int64 (str_to_int item).
Proof.
  intros Hlen. unfold int64, str_to_int. cbn zeta. case_decide; [|lia].
  pose proof (int_of_digits_nonneg (digits_of item)).
  pose proof (int_of_digits_lt (digits_of item)) as Hlt.
  assert (10 ^ Z.of_nat (length (digits_of item)) ≤ 10 ^ 18)
    by (apply Z.pow_le_mono_r; lia).
  lia.
Qed.

(** X16. On an array of two or more ASCII strings with at most 18 digits
    each, [extract_int_from_str] returns the integer read from each
    string, in the order of the array; an array of one string or none is
    returned as it is, its string not read. *)
Theorem extract_int_from_str_spec (array : list string) :
  ((1 < length array)%nat →
   Forall is_ascii array →
   Forall (λ item, length (digits_of item) ≤ 18)%nat array →
     ∃ l, extract_int_from_str array = Ints l
          ∧ length l = length array
          ∧ ∀ i item, array !! i = Some item →
                      l !! i = Some (str_to_int item))
  ∧ ((length array ≤ 1)%nat → extract_int_from_str array = Strs array).
Proof.
  unfold extract_int_from_str. split.
  - intros Hlen Hascii Hdigits.
    rewrite decide_True by done. rewrite decide_True by done.
    rewrite foldl_append_fmap, app_nil_l. unfold np_array.
    rewrite decide_True.
    + eexists. split; [done|]. split; [by rewrite length_fmap|].
      intros i item Hi. by rewrite list_lookup_fmap, Hi.
    + apply Forall_fmap. eapply Forall_impl; [exact Hdigits|].
      intros item. apply str_to_int_int64.
  - intros Hlen. by rewrite decide_False by lia.
Qed.

Lemma extract_int_from_str_spec_witness :
  let array := ["cluster 3"; "12"; "none"] in
  (1 < length array)%nat
  ∧ Forall is_ascii array
  ∧ Forall (λ item, length (digits_of item) ≤ 18)%nat array
  ∧ extract_int_from_str array = Ints [3; 12; -1]
  ∧ (∃ l, extract_int_from_str array = Ints l
          ∧ length l = length array
          ∧ ∀ i item, array !! i = Some item →
                      l !! i = Some (str_to_int item))
  ∧ ((length ["cluster 3"] ≤ 1)%nat →
     extract_int_from_str ["cluster 3"] = Strs ["cluster 3"]).
Proof.
  intros array.
  assert (H1 : (1 < length array)%nat) by (simpl; lia).
  assert (H2 : Forall is_ascii array).
  { repeat apply Forall_cons_2; [..|apply Forall_nil];
      apply (bool_decide_unpack _); vm_compute; exact I. }
  assert (H3 : Forall (λ item, length (digits_of item) ≤ 18)%nat array).
  { repeat apply Forall_cons_2; [..|apply Forall_nil];
      apply (bool_decide_unpack _); vm_compute; exact I. }
  split; [exact H1|]. split; [exact H2|]. split; [exact H3|].
  split; [vm_compute; reflexivity|]. split.
  - exact (proj1 (extract_int_from_str_spec array) H1 H2 H3).
  - exact (proj2 (extract_int_from_str_spec ["cluster 3"])).
Defined.

(** ** [cleanup] *)

Lemma foldl_delete_lookup {T} (keep : names) (keys : list string)
    (m : gmap string T) (k : string) :
  foldl (λ m key, if contains key keep then m else delete key m) m keys !! k
  = if decide (k ∈ keys ∧ contains k keep = false) then None else m !! k.
Proof.
  revert m. induction keys as [|key keys IH]; intros m; cbn [foldl].
  - case_decide as Hin; [|done]. destruct Hin as [Hin _].
    by apply elem_of_nil in Hin.
  - rewrite IH. destruct (decide (k ∈ keys ∧ contains k keep = false))
      as [[Hin Hk]|Hno].
    + rewrite decide_True; [done|]. split; [by right | done].
    + destruct (contains key keep) eqn:Hkey.
      * destruct (decide (k ∈ key :: keys ∧ contains k keep = false))
          as [[[->|Hin]%elem_of_cons Hk]|]; [congruence | | done].
        exfalso. by apply Hno.
      * destruct (decide (k = key)) as [->|Hne].
        -- rewrite lookup_delete_eq. rewrite decide_True; [done|].
           split; [by left | done].
        -- rewrite lookup_delete_ne by done.
           rewrite decide_False; [done|].
           intros [[->|Hin]%elem_of_cons Hk]; [done|]. by apply Hno.
Qed.

Lemma delete_unkept_lookup {T} (keep : names) (m : gmap string T) k :
  delete_unkept keep m !! k = if contains k keep then m !! k else None.
Proof.
  unfold delete_unkept. rewrite foldl_delete_lookup.
  destruct (contains k keep) eqn:Hk.
  - rewrite decide_False; [done|]. by intros [_ ?].
  - case_decide as Hin; [done|].
    destruct (m !! k) as [v|] eqn:Hm; [|done].
    exfalso. apply Hin. split; [|done].
    apply list_elem_of_fmap. exists (k, v). split; [done|].
    by apply elem_of_map_to_list.
Qed.

Lemma delete_unkept_idemp {T} (keep : names) (m : gmap string T) :
  delete_unkept keep (delete_unkept keep m) = delete_unkept keep m.
Proof.
  apply map_eq. intros k. rewrite !delete_unkept_lookup.
  by destruct (contains k keep).
Qed.

Lemma delete_unkept_subseteq {T} (keep : names) (m : gmap string T) :
  delete_unkept keep m ⊆ m.
Proof.
  apply map_subseteq_spec. intros k v. rewrite delete_unkept_lookup.
  by destruct (contains k keep).
Qed.

Section cleanup_facts.
Context {O V U L : Type}.
Implicit Types (data adata : anndata O V U L).

Lemma cleanup_copy data clean keep copy :
  cleanup data clean keep copy
  = let adata := (cleanup data clean keep false).2 in
    if copy then (Some adata, data) else (None, adata).
Proof. unfold cleanup. by destruct copy. Qed.

(** X17. [cleanup] deletes, from each table that [clean] selects, the keys
    that are not in [keep], and nothing else: in a selected table a key is
    present afterwards exactly when it was present and is in [keep], with
    its value; a table that is not selected is untouched.  With [copy] the
    cleaned data is returned and the argument is left as it was; without,
    the argument is cleaned and nothing is returned. *)
Theorem cleanup_spec data (clean keep : names) (copy : bool) :
  ∃ adata,
    cleanup data clean keep copy
    = (if copy then Some adata else None, if copy then data else adata)
    ∧ (∀ k, adata_obs adata !! k
            = if selected "obs" clean && negb (contains k keep)
              then None else adata_obs data !! k)
    ∧ (∀ k, adata_var adata !! k
            = if selected "var" clean && negb (contains k keep)
              then None else adata_var data !! k)
    ∧ (∀ k, adata_uns adata !! k
            = if selected "uns" clean && negb (contains k keep)
              then None else adata_uns data !! k)
    ∧ (∀ k, adata_layers adata !! k
            = if selected "layers" clean && negb (contains k keep)
              then None else adata_layers data !! k).
Proof.
  exists (cleanup data clean keep false).2.
  split; [rewrite cleanup_copy; by destruct copy|].
  unfold cleanup.
  destruct (selected "obs" clean), (selected "var" clean),
    (selected "uns" clean), (selected "layers" clean); cbn;
    repeat split; intros k; rewrite ?delete_unkept_lookup;
    by destruct (contains k keep).
Qed.

(** X18. [cleanup] only deletes, and a second call with the same arguments
    finds nothing left to delete. *)
Theorem cleanup_idempotent data (clean keep : names) :
  let adata := (cleanup data clean keep false).2 in
  (cleanup adata clean keep false).2 = adata
  ∧ adata_obs adata ⊆ adata_obs data
  ∧ adata_var adata ⊆ adata_var data
  ∧ adata_uns adata ⊆ adata_uns data
  ∧ adata_layers adata ⊆ adata_layers data.
Proof.
  unfold cleanup.
  destruct (selected "obs" clean), (selected "var" clean),
    (selected "uns" clean), (selected "layers" clean); cbn;
    rewrite ?delete_unkept_idemp;
    repeat split; try done; apply delete_unkept_subseteq.
Qed.

End cleanup_facts.

Lemma prefix_spec (x s : string) :
  String.prefix x s = true ↔ ∃ post, s = x +:+ post.
Proof.
  revert s. induction x as [|a x IH]; intros s.
  - split; [|by destruct s]. intros _. by exists s.
  - destruct s as [|b s]; cbn.
    + split; [done | by intros [post [=]]].
    + destruct (Ascii.ascii_dec a b) as [->|Hab].
      * rewrite IH. split; intros [post Hpost]; exists post.
        -- by rewrite Hpost.
        -- by injection Hpost.
      * split; [done|]. intros [post [= ? ?]]. done.
Qed.

Lemma is_substring_spec (x s : string) :
  is_substring x s = true ↔ ∃ pre post, s = pre +:+ x +:+ post.
Proof.
  induction s as [|c s IH].
  - cbn [is_substring]. rewrite orb_false_r, prefix_spec. split.
    + intros [post ->]. by exists "", post.
    + intros ([|??] & post & Hs); [by exists post | done].
  - cbn [is_substring]. rewrite orb_true_iff, prefix_spec, IH. split.
    + intros [[post ->]|(pre & post & ->)].
      * by exists "", post.
      * by exists (String c pre), post.
    + intros ([|c' pre] & post & Hs).
      * left. by exists post.
      * right. injection Hs as -> ->. by exists pre, post.
Qed.

Section cleanup_keep.
Context {O V U L : Type}.
Implicit Types (data adata : anndata O V U L).

Lemma cleanup_layers_lookup data (clean keep : names) k :
  adata_layers (cleanup data clean keep false).2 !! k
  = if selected "layers" clean && negb (contains k keep)
    then None else adata_layers data !! k.
Proof.
  unfold cleanup.
  destruct (selected "obs" clean), (selected "var" clean),
    (selected "uns" clean), (selected "layers" clean); cbn;
    rewrite ?delete_unkept_lookup; by destruct (contains k keep).
Qed.

(** X19. With [keep] given as one string, [cleanup] keeps a layer whenever
    its name occurs inside that string, and not only when it is that
    string: the layers left are those whose name is a part of [keep]. *)
Theorem cleanup_keep_str data (clean : names) (keep : string) k v :
  selected "layers" clean = true →
  let adata := (cleanup data clean (OneStr keep) false).2 in
  adata_layers adata !! k = Some v
  ↔ adata_layers data !! k = Some v
    ∧ ∃ pre post, keep = pre +:+ k +:+ post.
Proof.
  intros Hsel adata.
  unfold adata.
  rewrite cleanup_layers_lookup, Hsel, <-is_substring_spec.
  cbn [contains andb].
  destruct (is_substring k keep); cbn [negb].
  - split; [done | by intros [? _]].
  - split; [done | by intros [_ ?]].
Qed.

End cleanup_keep.

Lemma cleanup_keep_str_witness :
  let data : anndata unit unit unit unit :=
    AnnData ∅ ∅ ∅ {[ "spliced" := (); "unspliced" := (); "ambiguous" := () ]}
  in
  selected "layers" (OneStr "layers") = true
  ∧ adata_layers (cleanup data (OneStr "layers") (OneStr "unspliced") false).2
      !! "spliced" = Some ().
Proof.
  intros data. split; [reflexivity|].
  apply (cleanup_keep_str data (OneStr "layers") "unspliced" "spliced" ());
    [reflexivity|].
  split; [reflexivity|]. by exists "un", "".
Defined.

(** ** [set_initial_size] *)

Section set_initial_size_facts.
Context {V U : Type}.
Implicit Types (adata : anndata (list Z) V U layer).

Lemma set_initial_size_loop adata (layers : list string) :
  (∀ l, l ∈ layers → is_Some (adata_layers adata !! l)) →
  ∃ adata',
    foldl (λ acc l,
             match acc with
             | Returns adata =>
                 match adata_layers adata !! l with
                 | Some X =>
                     Returns
                       (AnnData (<["initial_size_" +:+ l := sum_rows X]>
                                   (adata_obs adata))
                                (adata_var adata) (adata_uns adata)
                                (adata_layers adata))
                 | None => KeyError l
                 end
             | _ => acc
             end)
          (Returns adata) layers = Returns adata'
    ∧ adata_var adata' = adata_var adata
    ∧ adata_uns adata' = adata_uns adata
    ∧ adata_layers adata' = adata_layers adata
    ∧ (∀ l X, l ∈ layers → adata_layers adata !! l = Some X →
         adata_obs adata' !! ("initial_size_" +:+ l) = Some (sum_rows X))
    ∧ (∀ k, (∀ l, l ∈ layers → k ≠ "initial_size_" +:+ l) →
         adata_obs adata' !! k = adata_obs adata !! k).
Proof.
  revert adata. induction layers as [|l0 layers IH]; intros adata Hall.
  - exists adata. repeat split; try done.
    by intros l X ?%elem_of_nil.
  - cbn [foldl].
    destruct (Hall l0 (list_elem_of_here _ _)) as [X0 HX0]. rewrite HX0.
    set (adata1 := AnnData _ _ _ _).
    destruct (IH adata1) as (adata' & Hrun & Hv & Hu & Hl & Hset & Hrest).
    { intros l Hin. apply Hall. by right. }
    exists adata'. split; [exact Hrun|]. do 3 (split; [done|]). split.
    + intros l X Hin HX. destruct (decide (l ∈ layers)) as [Hin'|Hin'].
      * by apply Hset.
      * apply elem_of_cons in Hin as [->|Hin]; [|done].
        rewrite Hrest.
        -- cbn. rewrite lookup_insert_eq. congruence.
        -- intros l Hl' Heq%(inj (String.app _)). congruence.
    + intros k Hk. rewrite Hrest.
      * cbn. rewrite lookup_insert_ne; [done|].
        intros Heq. by apply (Hk l0 (list_elem_of_here _ _)).
      * intros l Hin. apply Hk. by right.
Qed.

Lemma set_initial_size_check adata (layers : list string) :
  forallb (λ l, bool_decide (is_Some (adata_layers adata !! l))) layers
  = true
  ↔ ∀ l, l ∈ layers → is_Some (adata_layers adata !! l).
Proof.
  rewrite forallb_forall. split.
  - intros Hall l Hin%list_elem_of_In. apply Hall in Hin.
    by apply bool_decide_eq_true in Hin.
  - intros Hall l Hin%list_elem_of_In. by apply bool_decide_eq_true, Hall.
Qed.

Lemma set_initial_size_missing adata (layers : list string) :
  (∃ l, l ∈ layers ∧ adata_layers adata !! l = None) →
  set_initial_size adata layers = Returns adata.
Proof.
  intros (l & Hin & Hnone). unfold set_initial_size.
  destruct (forallb _ layers) eqn:Hall; [|done].
  destruct (proj1 (set_initial_size_check adata layers) Hall l Hin)
    as [X HX].
  congruence.
Qed.

Lemma set_initial_size_present adata (layers : list string) :
  (∀ l, l ∈ layers → is_Some (adata_layers adata !! l)) →
  ∃ adata',
    set_initial_size adata layers = Returns adata'
    ∧ adata_var adata' = adata_var adata
    ∧ adata_uns adata' = adata_uns adata
    ∧ adata_layers adata' = adata_layers adata
    ∧ (∀ l X, l ∈ layers → adata_layers adata !! l = Some X →
         adata_obs adata' !! ("initial_size_" +:+ l) = Some (sum_rows X))
    ∧ (∀ k, (∀ l, l ∈ layers → k ≠ "initial_size_" +:+ l) →
         adata_obs adata' !! k = adata_obs adata !! k).
Proof.
  intros Hall. unfold set_initial_size.
  rewrite (proj2 (set_initial_size_check adata layers) Hall).
  by apply set_initial_size_loop.
Qed.

Lemma layers_present_or_missing adata (layers : list string) :
  (∀ l, l ∈ layers → is_Some (adata_layers adata !! l))
  ∨ (∃ l, l ∈ layers ∧ adata_layers adata !! l = None).
Proof.
  destruct (decide (Forall (λ l, is_Some (adata_layers adata !! l)) layers))
    as [Hall|Hmiss].
  - left. by apply Forall_forall.
  - right. apply not_Forall_Exists in Hmiss; [|apply _].
    apply Exists_exists in Hmiss as (l & Hin & Hnone). exists l.
    split; [done|]. destruct (adata_layers adata !! l) as [X|] eqn:HX; [|done].
    exfalso. apply Hnone. by exists X.
Qed.

(** X20. [set_initial_size] never fails, and never changes [var], [uns]
    or the layers.  If one of the named layers is missing it changes
    nothing at all, also not for the layers that are present.  Otherwise
    it stores, for each named layer, the row sums of that layer under
    ["initial_size_<layer>"] in [obs], and leaves every other column of
    [obs] as it was. *)
Theorem set_initial_size_spec adata (layers : list string) :
  ∃ adata',
    set_initial_size adata layers = Returns adata'
    ∧ adata_var adata' = adata_var adata
    ∧ adata_uns adata' = adata_uns adata
    ∧ adata_layers adata' = adata_layers adata
    ∧ ((∃ l, l ∈ layers ∧ adata_layers adata !! l = None) → adata' = adata)
    ∧ ((∀ l, l ∈ layers → is_Some (adata_layers adata !! l)) →
       (∀ l X, l ∈ layers → adata_layers adata !! l = Some X →
          adata_obs adata' !! ("initial_size_" +:+ l) = Some (sum_rows X))
       ∧ (∀ k, (∀ l, l ∈ layers → k ≠ "initial_size_" +:+ l) →
          adata_obs adata' !! k = adata_obs adata !! k)).
Proof.
  destruct (layers_present_or_missing adata layers)
    as [Hall|(l & Hin & Hnone)].
  - destruct (set_initial_size_present adata layers Hall)
      as (adata' & Hrun & Hv & Hu & Hl & Hset & Hrest).
    exists adata'. split; [exact Hrun|]. do 3 (split; [done|]). split.
    + intros (l & Hin & Hnone). destruct (Hall l Hin) as [X HX]. congruence.
    + done.
  - exists adata. split.
    + apply set_initial_size_missing. by exists l.
    + do 3 (split; [done|]). split; [done|].
      intros Hall. destruct (Hall l Hin) as [X HX]. congruence.
Qed.

(** X21. The outcome of [set_initial_size] does not depend on the order in
    which the layers are visited, nor on a layer being named twice. *)
Theorem set_initial_size_order adata (layers layers' : list string) :
  (∀ l, l ∈ layers ↔ l ∈ layers') →
  set_initial_size adata layers = set_initial_size adata layers'.
Proof.
  intros Hsame.
  destruct (layers_present_or_missing adata layers)
    as [Hall|(l & Hin & Hnone)].
  - assert (∀ l, l ∈ layers' → is_Some (adata_layers adata !! l)) as Hall'.
    { intros l Hin. by apply Hall, Hsame. }
    destruct (set_initial_size_present adata layers Hall)
      as (a1 & -> & Hv1 & Hu1 & Hl1 & Hs1 & Hr1).
    destruct (set_initial_size_present adata layers' Hall')
      as (a2 & -> & Hv2 & Hu2 & Hl2 & Hs2 & Hr2).
    f_equal.
    assert (adata_obs a1 = adata_obs a2) as Hobs.
    { apply map_eq. intros k.
      destruct (decide (Exists (λ l, k = "initial_size_" +:+ l) layers))
        as [(l & Hin & ->)%Exists_exists|Hno].
      - destruct (Hall l Hin) as [X HX].
        rewrite (Hs1 l X Hin HX). symmetry. apply Hs2; [|done].
        by apply Hsame.
      - rewrite Hr1, Hr2; [done| |].
        + intros l Hin ->. apply Hno, Exists_exists. exists l.
          split; [by apply Hsame | done].
        + intros l Hin ->. apply Hno, Exists_exists. by exists l. }
    destruct a1, a2. cbn in *. congruence.
  - rewrite !set_initial_size_missing; [done | |].
    + exists l. split; [by apply Hsame | done].
    + by exists l.
Qed.

End set_initial_size_facts.

Lemma set_initial_size_spec_witness :
  let adata : anndata (list Z) unit unit layer :=
    AnnData {[ "n_counts" := [10; 20] ]} ∅ ∅
      {[ "spliced" := Dense [[1; 2]; [3; 4]] ]} in
  (∀ l, l ∈ ["spliced"] → is_Some (adata_layers adata !! l))
  ∧ ∃ adata',
      set_initial_size adata ["spliced"] = Returns adata'
      ∧ adata_layers adata' = adata_layers adata
      ∧ adata_obs adata' !! "initial_size_spliced" = Some [3; 7]
      ∧ adata_obs adata' !! "n_counts" = Some [10; 20].
Proof.
  intros adata.
  assert (∀ l, l ∈ ["spliced"] → is_Some (adata_layers adata !! l)) as Hall.
  { intros l ->%list_elem_of_singleton. eexists. reflexivity. }
  split; [exact Hall|].
  destruct (set_initial_size_spec adata ["spliced"])
    as (adata' & Hrun & _ & _ & Hl & _ & Hset).
  destruct (Hset Hall) as [Hs Hr].
  exists adata'. split; [exact Hrun|]. split; [exact Hl|]. split.
  - apply (Hs "spliced" (Dense [[1; 2]; [3; 4]]));
      [apply list_elem_of_here | reflexivity].
  - rewrite Hr; [reflexivity|].
    intros l ->%list_elem_of_singleton. discriminate.
Defined.

Lemma set_initial_size_order_witness :
  let adata : anndata (list Z) unit unit layer :=
    AnnData ∅ ∅ ∅
      {[ "spliced" := Dense [[1; 2]; [3; 4]];
         "unspliced" := Sparse [[(0%nat, 5)]; []] ]} in
  (∀ l, l ∈ ["spliced"; "unspliced"] ↔ l ∈ ["unspliced"; "spliced"; "spliced"])
  ∧ set_initial_size adata ["spliced"; "unspliced"]
    = set_initial_size adata ["unspliced"; "spliced"; "spliced"]
  ∧ (∃ adata', set_initial_size adata ["spliced"; "unspliced"]
               = Returns adata'
      ∧ adata_obs adata' !! "initial_size_spliced" = Some [3; 7]
      ∧ adata_obs adata' !! "initial_size_unspliced" = Some [5; 0]).
Proof.
  intros adata.
  assert (∀ l, l ∈ ["spliced"; "unspliced"]
               ↔ l ∈ ["unspliced"; "spliced"; "spliced"]) as Hsame.
  { intros l. rewrite !elem_of_cons, !elem_of_nil. tauto. }
  split; [exact Hsame|]. split.
  - exact (set_initial_size_order adata _ _ Hsame).
  - eexists. split; [reflexivity|]. split; reflexivity.
Defined.
